(** * Spherical-coordinate primitives of [utils/utils.py]

    A shallow embedding of [angle_between], [sph2vec], [vec2sph], [sphadj],
    [eleadj], [aziadj] and [vec2pol], together with the properties that the
    specification states about them.

    Numbers are real numbers ([R]): the specification speaks about exact real
    arithmetic.  A numpy value is either a scalar (an immutable [float64]) or
    an array object living in a heap; the in-place operators of the source
    ([+=], [-=], masked assignment) write into that heap, the rebinding ones
    ([theta = np.pi - theta]) allocate a fresh object. *)

From Stdlib Require Import Reals Lra Lia List Bool Arith ZArith Zfloor.
Import ListNotations.
Local Open Scope R_scope.

(** ** Comparisons as booleans *)

Definition Rltb (x y : R) : bool := if Rlt_dec x y then true else false.
Definition Rgeb (x y : R) : bool := if Rge_dec x y then true else false.
Definition Reqb (x y : R) : bool := if Req_dec_T x y then true else false.

(** ** Outcomes

    [NonFinite] stands for a computation that leaves the real numbers (numpy
    yields [inf] or [nan] there and goes on); [Raise] for a Python exception;
    [OutOfFuel] for a [while] loop that has not finished within the iterations
    it was given. *)

Inductive exn : Type :=
| ScalarIndexing      (* masked indexing or item assignment on a float64 scalar *)
| BroadcastMismatch   (* operands could not be broadcast together *)
| MaskMismatch        (* boolean index did not match the indexed array *)
| IndexOutOfRange     (* index out of bounds *)
| NoneOperand.        (* None where an array or a number is needed *)

Inductive result (A : Type) : Type :=
| Ok (a : A)
| NonFinite
| Raise (e : exn)
| OutOfFuel.

Arguments Ok {A} a.
Arguments NonFinite {A}.
Arguments Raise {A} e.
Arguments OutOfFuel {A}.

Definition rbind {A B : Type} (r : result A) (k : A -> result B) : result B :=
  match r with
  | Ok a => k a
  | NonFinite => NonFinite
  | Raise e => Raise e
  | OutOfFuel => OutOfFuel
  end.

Notation "x <- r ;; k" := (rbind r (fun x => k))
  (at level 61, r at next level, right associativity).
Notation "' p <- r ;; k" := (rbind r (fun x => match x with p => k end))
  (at level 61, p pattern, r at next level, right associativity).

(** ** Library functions of numpy, over the reals *)

(** [a % b] on floats: the remainder has the sign of the divisor. *)
Definition np_mod (a b : R) : R := a - b * IZR (Zfloor (a / b)).

(** [np.arctan2(y, x)]: the angle of the point [(x, y)], in [(-pi, pi]]. *)
Definition arctan2 (y x : R) : R :=
  if Rlt_dec 0 x then atan (y / x)
  else if Rlt_dec x 0 then
    (if Rle_dec 0 y then atan (y / x) + PI else atan (y / x) - PI)
  else if Rlt_dec 0 y then PI / 2
  else if Rlt_dec y 0 then - (PI / 2)
  else 0.

(** [np.arccos]: [nan] outside [[-1, 1]]. *)
Definition arccos (x : R) : result R :=
  if Rle_dec (-1) x then if Rle_dec x 1 then Ok (acos x) else NonFinite
  else NonFinite.

(** Float division: [inf] or [nan] on a zero divisor. *)
Definition np_div (x y : R) : result R :=
  if Req_dec_T y 0 then NonFinite else Ok (x / y).

Definition sumsq (v : list R) : R := fold_right (fun x acc => x * x + acc) 0 v.

(** [la.norm] of a one-dimensional array. *)
Definition norm (v : list R) : R := sqrt (sumsq v).

(** The radius by which [vec2sph] divides: the norm, or 1 for the zero
    vector ([if rho == 0: rho = 1.]). *)
Definition radius (v : list R) : R :=
  if Req_dec_T (norm v) 0 then 1 else norm v.

(** ** The heap of array objects *)

Definition loc := nat.
Definition heap := list (list R).

Inductive ndval : Type :=
| Scalar (r : R)
| Array (a : loc).

(** An array object is named by its position in the heap.  A program only
    holds names of objects that exist; for a name beyond the heap [read] gives
    the empty array and [write] does nothing. *)
Definition read (h : heap) (a : loc) : list R := nth a h [].

Fixpoint write (h : heap) (a : loc) (l : list R) : heap :=
  match h, a with
  | [], _ => []
  | _ :: h', O => l :: h'
  | c :: h', S a' => c :: write h' a' l
  end.

Definition alloc (h : heap) (l : list R) : loc * heap := (length h, h ++ [l]).

(** The elements a reduction such as [.all()] or [np.all] ranges over. *)
Definition contents (h : heap) (v : ndval) : list R :=
  match v with
  | Scalar r => [r]
  | Array a => read h a
  end.

(** Two values are aliased when they are one and the same array object. *)
Definition aliased (v w : ndval) : Prop :=
  match v, w with
  | Array a, Array b => a = b
  | _, _ => False
  end.

(** The array object behind an argument, if any. *)
Definition object_of (o : option ndval) (b : loc) : Prop := o = Some (Array b).

(** [v'] is still the value [v] was: the same array object, or a scalar for a
    scalar. *)
Definition same_object (v v' : ndval) : Prop :=
  match v, v' with
  | Array a, Array b => a = b
  | Scalar _, Scalar _ => True
  | _, _ => False
  end.

Definition same_arg (o o' : option ndval) : Prop :=
  match o, o' with
  | Some v, Some v' => same_object v v'
  | None, None => True
  | _, _ => False
  end.

(** The arrays of [h] are found in [h'] as they were, except the ones that
    [passed] singles out. *)
Definition untouched (passed : loc -> Prop) (h h' : heap) : Prop :=
  (length h <= length h')%nat
  /\ forall b : loc, (b < length h)%nat -> ~ passed b -> read h' b = read h b.

(** Every element of an argument, if there is one, lies in [[lo, hi)]. *)
Definition within (lo hi : R) (h : heap) (o : option ndval) : Prop :=
  match o with
  | None => True
  | Some v => contents h v <> [] /\ Forall (fun x => lo <= x < hi) (contents h v)
  end.

(** [c - v]: a new value, a new object when [v] is an array. *)
Definition rsub (c : R) (v : ndval) (h : heap) : ndval * heap :=
  match v with
  | Scalar r => (Scalar (c - r), h)
  | Array a => let (a', h') := alloc h (map (fun x => c - x) (read h a)) in
               (Array a', h')
  end.

(** [v += c], and [v -= c] as [v += -c]: rebinding for a scalar, in place for
    an array. *)
Definition iadd (v : ndval) (c : R) (h : heap) : ndval * heap :=
  match v with
  | Scalar r => (Scalar (r + c), h)
  | Array a => (Array a, write h a (map (fun x => x + c) (read h a)))
  end.

(** [v[m(v)] = c - v[m(v)]]: the mask is taken on [v] itself. *)
Definition mask_rsub (c : R) (m : R -> bool) (v : ndval) (h : heap)
  : result heap :=
  match v with
  | Scalar _ => Raise ScalarIndexing
  | Array a =>
      Ok (write h a (map (fun x => if m x then c - x else x) (read h a)))
  end.

Fixpoint add_where (mask : list bool) (c : R) (l : list R) : list R :=
  match mask, l with
  | b :: mask', x :: l' => (if b then x + c else x) :: add_where mask' c l'
  | _, _ => l
  end.

(** [v[mask] += c] for a boolean array [mask]. *)
Definition mask_iadd (mask : list bool) (v : ndval) (c : R) (h : heap)
  : result heap :=
  match v with
  | Scalar _ => Raise ScalarIndexing
  | Array a =>
      if Nat.eqb (length mask) (length (read h a))
      then Ok (write h a (add_where mask c (read h a)))
      else Raise MaskMismatch
  end.

(** [np.all(phi)]: false for [None], otherwise every element is nonzero. *)
Definition np_all (phi : option ndval) (h : heap) : bool :=
  match phi with
  | None => false
  | Some p => forallb (fun x => negb (Reqb x 0)) (contents h p)
  end.

(** ** [angle_between] *)

Definition angle_between (ang1 ang2 : R) (sign : bool) : R :=
  let d := np_mod (ang1 - ang2 + PI) (2 * PI) - PI in
  if sign then d else Rabs d.

(** Element-wise on two arrays of the same shape; operands of different
    shapes, which numpy broadcasts or refuses, are outside this model. *)
Fixpoint angle_between_arr (a1 a2 : list R) (sign : bool) : list R :=
  match a1, a2 with
  | x :: a1', y :: a2' => angle_between x y sign :: angle_between_arr a1' a2' sign
  | _, _ => []
  end.

(** ** [sphadj] *)

Module Sphadj.

(** The shift of the azimuth that goes with a fold of every elevation:
    [if np.all(phi): phi += np.pi]. *)
Definition shift_all (phi : option ndval) (h : heap) : option ndval * heap :=
  match phi with
  | Some p => if np_all phi h
              then let (p', h') := iadd p PI h in (Some p', h')
              else (phi, h)
  | None => (phi, h)
  end.

(** The shift that goes with a fold of some elevations:
    [if np.all(phi): phi[m(theta)] += np.pi], where the mask is computed from
    the elevation array as it is at that point. *)
Definition shift_where (m : R -> bool) (t : ndval) (phi : option ndval)
    (h : heap) : result heap :=
  match phi with
  | Some p => if np_all phi h
              then mask_iadd (map m (contents h t)) p PI h
              else Ok h
  | None => Ok h
  end.

(** Lines 102-118: the elevation. *)
Definition elevation (theta phi : option ndval) (theta_min theta_max : R)
    (h : heap) : result (option ndval * option ndval * heap) :=
  match theta with
  | None => Ok (theta, phi, h)
  | Some t =>
      let above := fun x => Rgeb x theta_max in
      let below := fun x => Rltb x theta_min in
      if forallb above (contents h t) then
        let (t', h1) := rsub PI t h in
        let (phi', h2) := shift_all phi h1 in
        Ok (Some t', phi', h2)
      else if forallb below (contents h t) then
        let (t', h1) := rsub (- PI) t h in
        let (phi', h2) := shift_all phi h1 in
        Ok (Some t', phi', h2)
      else if existsb above (contents h t) then
        h1 <- mask_rsub PI above t h ;;
        h2 <- shift_where above t phi h1 ;;
        Ok (theta, phi, h2)
      else if existsb below (contents h t) then
        h1 <- mask_rsub (- PI) below t h ;;
        h2 <- shift_where below t phi h1 ;;
        Ok (theta, phi, h2)
      else Ok (theta, phi, h)
  end.

(** A [while] loop over the azimuth and the heap, with a bound on the number
    of tests of its condition. *)
Fixpoint while (fuel : nat) (cond : ndval -> heap -> bool)
    (body : ndval -> heap -> result (ndval * heap)) (p : ndval) (h : heap)
  : result (ndval * heap) :=
  match fuel with
  | O => OutOfFuel
  | S fuel' =>
      if cond p h
      then '(p', h') <- body p h ;; while fuel' cond body p' h'
      else Ok (p, h)
  end.

(** [phi[m(phi)] += c]. *)
Definition iadd_where (m : R -> bool) (c : R) (p : ndval) (h : heap)
  : result (ndval * heap) :=
  h' <- mask_iadd (map m (contents h p)) p c h ;; Ok (p, h').

(** Lines 120-128: the azimuth. *)
Definition azimuth (fuel : nat) (phi : option ndval) (phi_min phi_max : R)
    (h : heap) : result (option ndval * heap) :=
  match phi with
  | None => Ok (phi, h)
  | Some p =>
      let below := fun x => Rltb x phi_min in
      let above := fun x => Rgeb x phi_max in
      '(p1, h1) <- while fuel (fun p h => forallb below (contents h p))
                     (fun p h => Ok (iadd p (2 * PI) h)) p h ;;
      '(p2, h2) <- while fuel (fun p h => forallb above (contents h p))
                     (fun p h => Ok (iadd p (- (2 * PI)) h)) p1 h1 ;;
      '(p3, h3) <- while fuel (fun p h => existsb below (contents h p))
                     (iadd_where below (2 * PI)) p2 h2 ;;
      '(p4, h4) <- while fuel (fun p h => existsb above (contents h p))
                     (iadd_where above (- (2 * PI))) p3 h3 ;;
      Ok (Some p4, h4)
  end.

Definition sphadj (fuel : nat) (theta phi : option ndval)
    (theta_min theta_max phi_min phi_max : R) (h : heap)
  : result (option ndval * option ndval * heap) :=
  '(theta', phi', h') <- elevation theta phi theta_min theta_max h ;;
  '(phi'', h'') <- azimuth fuel phi' phi_min phi_max h' ;;
  Ok (theta', phi'', h'').

End Sphadj.

(** A loop on the elements alone: what [while] does to the contents of the
    azimuth. *)
Fixpoint iterate_while {St : Type} (fuel : nat) (cond : St -> bool)
    (body : St -> St) (s : St) : option St :=
  match fuel with
  | O => None
  | S fuel' => if cond s then iterate_while fuel' cond body (body s) else Some s
  end.

(** The value the specification gives for a folded azimuth. *)
Definition modulo_fold (phi_min phi_max x : R) : R :=
  np_mod (x - phi_min) (phi_max - phi_min) + phi_min.

(** How many times [2*pi] has to be added to [x] to reach [phi_min], and
    subtracted from it to come below [phi_max]. *)
Definition steps_up (phi_min x : R) : nat :=
  Z.to_nat (Zceil ((phi_min - x) / (2 * PI))).

Definition steps_down (phi_max x : R) : nat :=
  Z.to_nat (Zfloor ((x - phi_max) / (2 * PI)) + 1).

(** [sphadj] with the default bounds of its signature. *)
Definition sphadj (fuel : nat) (theta phi : option ndval) (h : heap) :=
  Sphadj.sphadj fuel theta phi (- PI / 2) (PI / 2) (- PI) PI h.

Definition eleadj (fuel : nat) (theta : ndval) (h : heap)
  : result (option ndval * heap) :=
  '(theta', _, h') <- sphadj fuel (Some theta) None h ;; Ok (theta', h').

Definition aziadj (fuel : nat) (phi : ndval) (h : heap)
  : result (option ndval * heap) :=
  '(_, phi', h') <- sphadj fuel None (Some phi) h ;; Ok (phi', h').

(** ** [vec2sph] and [sph2vec] *)

(** An argument that is only read is passed by value: a flat coordinate or a
    stack of rows. *)
Inductive packed : Type :=
| Flat (c : list R)
| Rows (rows : list (list R)).

(** The argument of [vec2sph]: a one-dimensional array object, or an N-by-3
    stack of rows. *)
Inductive vecarg : Type :=
| Vec1 (a : loc)
| Vec2 (rows : list (list R)).

Definition item (l : list R) (i : nat) : result R :=
  match nth_error l i with
  | Some x => Ok x
  | None => Raise IndexOutOfRange
  end.

Fixpoint map_result {A B : Type} (f : A -> result B) (l : list A)
  : result (list B) :=
  match l with
  | [] => Ok []
  | x :: l' => y <- f x ;; ys <- map_result f l' ;; Ok (y :: ys)
  end.

Definition the (o : option ndval) : result ndval :=
  match o with
  | Some v => Ok v
  | None => Raise NoneOperand
  end.

(** Division of one row of shape [(d,)] by an array of shape [(n,)], under the
    broadcasting rule: the lengths agree or one of them is 1. *)
Fixpoint div_zip (row rho : list R) : result (list R) :=
  match row, rho with
  | x :: row', r :: rho' => q <- np_div x r ;; qs <- div_zip row' rho' ;; Ok (q :: qs)
  | _, _ => Ok []
  end.

Definition row_div (row rho : list R) : result (list R) :=
  if Nat.eqb (length row) (length rho) then div_zip row rho
  else match rho, row with
       | [r], _ => map_result (fun x => np_div x r) row
       | _, [x] => map_result (fun r => np_div x r) rho
       | _, _ => Raise BroadcastMismatch
       end.

(** [vec / rho] for [vec] of shape [(N, d)] and [rho] of shape [(n,)]: the
    trailing axis of [vec] is matched against [rho].  A batch without rows
    stands for an array of shape [(0, 3)]. *)
Definition broadcast_div (vec : list (list R)) (rho : list R)
  : result (list (list R)) :=
  match vec with
  | [] => if Nat.eqb (length rho) 3 || Nat.eqb (length rho) 1
          then Ok [] else Raise BroadcastMismatch
  | _ => map_result (fun row => row_div row rho) vec
  end.

Fixpoint zip3 (t p r : list R) : list (list R) :=
  match t, p, r with
  | x :: t', y :: p', z :: r' => [x; y; z] :: zip3 t' p' r'
  | _, _, _ => []
  end.

(** [np.asarray([theta, phi, rho]).T] *)
Definition pack (theta phi rho : ndval) (h : heap) : result packed :=
  match theta, phi, rho with
  | Scalar t, Scalar p, Scalar r => Ok (Flat [t; p; r])
  | Array t, Array p, Array r =>
      if Nat.eqb (length (read h t)) (length (read h p))
         && Nat.eqb (length (read h p)) (length (read h r))
      then Ok (Rows (zip3 (read h t) (read h p) (read h r)))
      else Raise BroadcastMismatch
  | _, _, _ => Raise BroadcastMismatch
  end.

Definition vec2sph (fuel : nat) (vec : vecarg) (h : heap)
  : result (packed * heap) :=
  match vec with
  | Vec1 a =>
      let rho := radius (read h a) in
      v <- map_result (fun x => np_div x rho) (read h a) ;;
      v0 <- item v 0 ;;
      v1 <- item v 1 ;;
      let phi := arctan2 v0 v1 in
      v2 <- item v 2 ;;
      ac <- arccos v2 ;;
      let theta := PI / 2 - ac in
      '(theta', phi', h') <- sphadj fuel (Some (Scalar theta)) (Some (Scalar phi)) h ;;
      t <- the theta' ;;
      p <- the phi' ;;
      r <- pack t p (Scalar rho) h' ;;
      Ok (r, h')
  | Vec2 rows =>
      let (rho, h1) := alloc h (map norm rows) in
      let h2 := write h1 rho (map (fun x => if Reqb x 0 then 1 else x) (read h1 rho)) in
      v <- broadcast_div rows (read h2 rho) ;;
      phi0 <- map_result (fun row => v0 <- item row 0 ;; v1 <- item row 1 ;;
                                      Ok (arctan2 v0 v1)) v ;;
      theta0 <- map_result (fun row => v2 <- item row 2 ;; ac <- arccos v2 ;;
                                        Ok (PI / 2 - ac)) v ;;
      let (phi, h3) := alloc h2 phi0 in
      let (theta, h4) := alloc h3 theta0 in
      '(theta', phi', h') <- sphadj fuel (Some (Array theta)) (Some (Array phi)) h4 ;;
      t <- the theta' ;;
      p <- the phi' ;;
      r <- pack t p (Array rho) h' ;;
      Ok (r, h')
  end.

(** Lines 36-40, on the components. *)
Definition sph2vec (theta phi rho : R) : list R :=
  [rho * (sin phi * cos theta); rho * (cos phi * cos theta); rho * sin theta].

(** Lines 24-34: the coordinate is unpacked; the radius is 1 when there is no
    third component. *)
Definition unpack (c : list R) : result (R * R * R) :=
  phi <- item c 1 ;;
  let rho := match nth_error c 2 with Some r => r | None => 1 end in
  theta <- item c 0 ;;
  Ok (theta, phi, rho).

(** [theta[..., j]] on a two-dimensional array: its column [j]. *)
Definition component (j : nat) (rows : list (list R)) : result (list R) :=
  map_result (fun row => item row j) rows.

(** [theta.shape[1]]: the length of the rows. *)
Definition shape1 (rows : list (list R)) : nat := length (hd [] rows).

Fixpoint zip_with (f : R -> R -> R) (a b : list R) : list R :=
  match a, b with
  | x :: a', y :: b' => f x y :: zip_with f a' b'
  | _, _ => []
  end.

(** [rho * a], element-wise, for a radius that is the default number or a
    column of radii. *)
Definition times (rho : R + list R) (a : list R) : list R :=
  match rho with
  | inl r => map (fun v => r * v) a
  | inr rs => zip_with Rmult rs a
  end.

(** [sph2vec] with [phi] left out.  A flat coordinate goes through lines
    25-29 and the formulas on numbers; a batch goes through lines 30-34, which
    take the columns, and the formulas on arrays. *)
Definition sph2vec_packed (s : packed) : result packed :=
  match s with
  | Flat c => '(theta, phi, rho) <- unpack c ;; Ok (Flat (sph2vec theta phi rho))
  | Rows rows =>
      phi <- component 1 rows ;;
      rho <- (if Nat.ltb 2 (shape1 rows)
              then rs <- component 2 rows ;; Ok (inr rs)
              else Ok (inl 1)) ;;
      theta <- component 0 rows ;;
      let x := times rho (zip_with (fun p t => sin p * cos t) phi theta) in
      let y := times rho (zip_with (fun p t => cos p * cos t) phi theta) in
      let z := times rho (map sin theta) in
      Ok (Rows (zip3 x y z))
  end.

(** [sph2vec(vec2sph(vec))] *)
Definition sph2vec_vec2sph (fuel : nat) (vec : vecarg) (h : heap)
  : result packed :=
  '(s, _) <- vec2sph fuel vec h ;; sph2vec_packed s.

(** ** [vec2pol] *)

(** The packed form, on one coordinate: [vec[..., 0:1]] and [vec[..., 1:2]]
    are slices, empty when the component is missing. *)
Definition vec2pol_packed (vec : list R) : list R :=
  match vec with
  | x :: y :: _ => [sqrt (x * x + y * y); arctan2 y x]
  | _ => []
  end.

(** The form with two arguments; [vec] is the first one. *)
Definition vec2pol (vec y : R) : R * R :=
  (sqrt (vec * vec + y * y), arctan2 vec y).

(** ** [pol2vec] *)

(** The packed form, on one coordinate: [pol[..., 0:1]] and [pol[..., 1:2]]
    are slices, and a missing angle leaves nothing to multiply. *)
Definition pol2vec_packed (pol : list R) : list R :=
  match pol with
  | rho :: phi :: _ => [rho * cos phi; rho * sin phi]
  | _ => []
  end.

(** The form with two arguments. *)
Definition pol2vec (pol phi : R) : R * R := (pol * cos phi, pol * sin phi).

(** ** [rotation_matrix] and [azirot] *)

Definition rotation_matrix (theta : R) : list (list R) :=
  [[cos theta; - sin theta]; [sin theta; cos theta]].

Fixpoint dotp (u v : list R) : R :=
  match u, v with
  | x :: u', y :: v' => x * y + dotp u' v'
  | _, _ => 0
  end.

Definition column (j : nat) (m : list (list R)) : list R :=
  map (fun row => nth j row 0) m.

Definition transpose (m : list (list R)) : list (list R) :=
  map (fun j => column j m) (seq 0 (length (hd [] m))).

(** The determinant of a 2-by-2 matrix. *)
Definition det2 (m : list (list R)) : R :=
  nth 0 (nth 0 m []) 0 * nth 1 (nth 1 m []) 0
  - nth 1 (nth 0 m []) 0 * nth 0 (nth 1 m []) 0.

(** [m.dot(v)] for a matrix and a one-dimensional array: the rows of [m] must
    be as long as [v] (a [ValueError] on shapes that are not aligned). *)
Definition mat_vec (m : list (list R)) (v : list R) : result (list R) :=
  if forallb (fun row => Nat.eqb (length row) (length v)) m
  then Ok (map (fun row => dotp row v) m)
  else Raise BroadcastMismatch.

(** [a.dot(b)] for two matrices. *)
Definition mat_mul (a b : list (list R)) : result (list (list R)) :=
  if forallb (fun row => Nat.eqb (length row) (length b)) a
  then Ok (map (fun row => map (fun col => dotp row col) (transpose b)) a)
  else Raise BroadcastMismatch.

Definition azirot (vec : list R) (phi : R) : result (list R) :=
  let Rz := [[cos phi; - sin phi; 0]; [sin phi; cos phi; 0]; [0; 0; 1]] in
  mat_vec Rz vec.

(** ** A single fold of an elevation and the shift that goes with it, as
    [sphadj] with the default bounds applies them to scalars *)

Definition fold_theta (theta : R) : R :=
  if Rgeb theta (PI / 2) then PI - theta
  else if Rltb theta (- PI / 2) then - PI - theta
  else theta.

Definition shift_phi (theta phi : R) : R :=
  if Rgeb theta (PI / 2) || Rltb theta (- PI / 2)
  then (if Reqb phi 0 then phi else phi + PI)
  else phi.

(** * Properties *)

(** ** Deciding comparisons *)

Lemma Rltb_true (x y : R) : x < y -> Rltb x y = true.
Proof. intros H. unfold Rltb. destruct (Rlt_dec x y); [reflexivity | contradiction]. Qed.

Lemma Rltb_false (x y : R) : y <= x -> Rltb x y = false.
Proof. intros H. unfold Rltb. destruct (Rlt_dec x y); [lra | reflexivity]. Qed.

Lemma Rgeb_true (x y : R) : y <= x -> Rgeb x y = true.
Proof. intros H. unfold Rgeb. destruct (Rge_dec x y); [reflexivity | lra]. Qed.

Lemma Rgeb_false (x y : R) : x < y -> Rgeb x y = false.
Proof. intros H. unfold Rgeb. destruct (Rge_dec x y); [lra | reflexivity]. Qed.

Lemma Reqb_true (x y : R) : x = y -> Reqb x y = true.
Proof. intros H. unfold Reqb. destruct (Req_dec_T x y); [reflexivity | contradiction]. Qed.

Lemma Reqb_false (x y : R) : x <> y -> Reqb x y = false.
Proof. intros H. unfold Reqb. destruct (Req_dec_T x y); [contradiction | reflexivity]. Qed.

Lemma Rltb_spec (x y : R) : Rltb x y = true <-> x < y.
Proof. unfold Rltb. destruct (Rlt_dec x y); split; intros; try reflexivity; try assumption; try contradiction; congruence. Qed.

Lemma Rgeb_spec (x y : R) : Rgeb x y = true <-> y <= x.
Proof. unfold Rgeb. destruct (Rge_dec x y); split; intros; try reflexivity; try congruence; lra. Qed.

Lemma PI_bounds : 3 < PI <= 4.
Proof. pose proof PI2_3_2. pose proof PI_4. lra. Qed.

(** Settles every comparison of the goal that linear arithmetic over the
    hypotheses can settle, and lets the program take the branch. *)
Ltac Rdecide1 :=
  match goal with
  | |- context [Rltb ?a ?b] =>
      first [ rewrite (Rltb_true a b) by lra | rewrite (Rltb_false a b) by lra ]
  | |- context [Rgeb ?a ?b] =>
      first [ rewrite (Rgeb_true a b) by lra | rewrite (Rgeb_false a b) by lra ]
  | |- context [Reqb ?a ?b] =>
      first [ rewrite (Reqb_true a b) by lra | rewrite (Reqb_false a b) by lra ]
  | |- context [Rlt_dec ?a ?b] =>
      destruct (Rlt_dec a b); [ try (exfalso; lra) | try (exfalso; lra) ]
  | |- context [Rle_dec ?a ?b] =>
      destruct (Rle_dec a b); [ try (exfalso; lra) | try (exfalso; lra) ]
  | |- context [Req_dec_T ?a ?b] =>
      destruct (Req_dec_T a b); [ try (exfalso; lra) | try (exfalso; lra) ]
  end.

Ltac Rdecide := repeat (Rdecide1; simpl).

(** ** The remainder *)

Lemma np_mod_unique (a b r : R) (k : Z) :
  0 < b -> 0 <= r < b -> a = r + b * IZR k -> np_mod a b = r.
Proof.
  intros Hb Hr Ha. unfold np_mod.
  assert (Hk : Zfloor (a / b) = k).
  { apply Zfloor_eq. subst a.
    replace ((r + b * IZR k) / b) with (r / b + IZR k) by (field; lra).
    assert (0 <= r / b < 1).
    { split.
      - apply Rmult_le_pos; [lra | left; apply Rinv_0_lt_compat; lra].
      - apply Rmult_lt_reg_r with b; [lra |].
        replace (r / b * b) with r by (field; lra). lra. }
    lra. }
  rewrite Hk. lra.
Qed.

Lemma np_mod_bound (a b : R) : 0 < b -> 0 <= np_mod a b < b.
Proof.
  intros Hb. unfold np_mod.
  destruct (Zfloor_bound (a / b)) as [Hlo Hhi].
  assert (Ha : a = a / b * b) by (field; lra).
  split.
  - apply Rmult_le_compat_r with (r := b) in Hlo; [| lra]. lra.
  - apply Rmult_lt_compat_r with (r := b) in Hhi; [| lra]. lra.
Qed.

Lemma np_mod_congr (a b : R) : np_mod a b = a + b * IZR (- Zfloor (a / b)).
Proof. unfold np_mod. rewrite opp_IZR. lra. Qed.

(** Two numbers of one half-open interval of width [w] that differ by a
    multiple of [w] are equal. *)
Lemma congruent_unique (lo w x y : R) (k : Z) :
  0 < w -> lo <= x < lo + w -> lo <= y < lo + w -> x = y + w * IZR k -> x = y.
Proof.
  intros Hw Hx Hy Hk.
  assert (Hz : k = 0%Z).
  { destruct (Z.lt_trichotomy k 0) as [Hlt | [Heq | Hgt]]; [| assumption |].
    - exfalso. assert (IZR k <= -1) by (apply IZR_le; lia). nra.
    - exfalso. assert (1 <= IZR k) by (apply IZR_le; lia). nra. }
  subst k. lra.
Qed.

(** ** [angle_between] *)

Lemma angle_between_arr_pointwise (a1 a2 : list R) (sign : bool) :
  angle_between_arr a1 a2 sign =
  map (fun xy => angle_between (fst xy) (snd xy) sign) (combine a1 a2).
Proof.
  revert a2. induction a1 as [| x a1 IH]; intros [| y a2]; simpl; try reflexivity.
  now rewrite IH.
Qed.

Lemma angle_between_signed_bound (ang1 ang2 : R) :
  - PI <= angle_between ang1 ang2 true < PI.
Proof.
  unfold angle_between. pose proof PI_RGT_0.
  pose proof (np_mod_bound (ang1 - ang2 + PI) (2 * PI)). lra.
Qed.

Lemma angle_between_signed_congr (ang1 ang2 : R) :
  exists k : Z, angle_between ang1 ang2 true = ang1 - ang2 + 2 * PI * IZR k.
Proof.
  unfold angle_between. rewrite np_mod_congr.
  exists (- Zfloor ((ang1 - ang2 + PI) / (2 * PI)))%Z. lra.
Qed.

Lemma angle_between_value (ang1 ang2 d : R) (k : Z) :
  - PI <= d < PI -> ang1 - ang2 = d + 2 * PI * IZR k ->
  angle_between ang1 ang2 true = d.
Proof.
  intros Hd Hk. unfold angle_between. pose proof PI_RGT_0.
  rewrite (np_mod_unique (ang1 - ang2 + PI) (2 * PI) (d + PI) k); lra.
Qed.

(** C3, as the code has it: the signed difference is the representative of
    [ang1 - ang2] modulo [2*pi] in the half-open interval [[-pi, pi)] (closed
    at [-pi], open at [pi]), element-wise on arrays; without sign it is the
    absolute value of that, in [[0, pi]]; [angle_between(pi - 0.01, -pi + 0.01)]
    is [-0.02], of magnitude [0.02], and [angle_between(0, pi, sign=False)] is
    [pi]. *)
Theorem angle_between_folds_into_minus_pi_pi (ang1 ang2 : R) :
  let d := angle_between ang1 ang2 true in
  - PI <= d < PI
  /\ (exists k : Z, d = ang1 - ang2 + 2 * PI * IZR k)
  /\ (forall (d' : R) (k : Z),
        - PI <= d' < PI -> d' = ang1 - ang2 + 2 * PI * IZR k -> d' = d)
  /\ angle_between ang1 ang2 false = Rabs d
  /\ 0 <= angle_between ang1 ang2 false <= PI
  /\ (forall (a1 a2 : list R) (sign : bool),
        angle_between_arr a1 a2 sign =
        map (fun xy => angle_between (fst xy) (snd xy) sign) (combine a1 a2))
  /\ angle_between (PI - 1 / 100) (- PI + 1 / 100) true = - (2 / 100)
  /\ angle_between (PI - 1 / 100) (- PI + 1 / 100) false = 2 / 100
  /\ angle_between 0 PI false = PI.
Proof.
  intros d. pose proof PI_bounds as HPI.
  pose proof (angle_between_signed_bound ang1 ang2) as Hb. fold d in Hb.
  assert (Hex : angle_between (PI - 1 / 100) (- PI + 1 / 100) true = - (2 / 100)).
  { apply angle_between_value with (k := 1%Z); lra. }
  assert (Hpi : angle_between 0 PI true = - PI).
  { apply angle_between_value with (k := 0%Z); lra. }
  repeat split; try apply Hb.
  - apply angle_between_signed_congr.
  - intros d' k Hd' Hk. symmetry.
    apply angle_between_value with (k := (- k)%Z); [assumption |].
    rewrite opp_IZR. lra.
  - apply Rabs_pos.
  - change (Rabs d <= PI). apply Rabs_le. lra.
  - apply angle_between_arr_pointwise.
  - exact Hex.
  - change (Rabs (angle_between (PI - 1 / 100) (- PI + 1 / 100) true) = 2 / 100).
    rewrite Hex, Rabs_Ropp. apply Rabs_pos_eq. lra.
  - change (Rabs (angle_between 0 PI true) = PI).
    rewrite Hpi, Rabs_Ropp. apply Rabs_pos_eq. lra.
Qed.

Lemma angle_between_folds_into_minus_pi_pi_witness :
  - PI <= angle_between 0 PI true < PI.
Proof. apply (angle_between_folds_into_minus_pi_pi 0 PI). Defined.

(** C3 as stated fails at the boundary and in its example: the difference of
    [0] and [pi] comes out as [-pi], outside [(-pi, pi]], and the example
    evaluates to [-0.02], not to [0.02]. *)
Lemma angle_between_not_in_left_open_interval :
  angle_between 0 PI true = - PI
  /\ ~ (- PI < angle_between 0 PI true <= PI)
  /\ angle_between (PI - 1 / 100) (- PI + 1 / 100) true <> 2 / 100.
Proof.
  pose proof PI_bounds as HPI.
  assert (Hpi : angle_between 0 PI true = - PI).
  { apply angle_between_value with (k := 0%Z); lra. }
  assert (Hex : angle_between (PI - 1 / 100) (- PI + 1 / 100) true = - (2 / 100)).
  { apply angle_between_value with (k := 1%Z); lra. }
  split; [exact Hpi |]. split.
  - rewrite Hpi. lra.
  - rewrite Hex. lra.
Qed.

(** ** [vec2pol] *)

Lemma arctan2_0_1 : arctan2 0 1 = 0.
Proof.
  unfold arctan2. destruct (Rlt_dec 0 1); [| lra].
  replace (0 / 1) with 0 by field. apply atan_0.
Qed.

Lemma arctan2_1_0 : arctan2 1 0 = PI / 2.
Proof.
  unfold arctan2. destruct (Rlt_dec 0 0); [lra |].
  destruct (Rlt_dec 0 1); [reflexivity | lra].
Qed.

Lemma sqrt_1_0 : sqrt (1 * 1 + 0 * 0) = 1.
Proof. replace (1 * 1 + 0 * 0) with 1 by ring. apply sqrt_1. Qed.

(** C6: on [x = 1], [y = 0] the packed form answers [atan2(y, x) = 0], the
    form with two arguments answers [atan2(x, y) = pi/2]; the radius is
    [hypot(x, y)] in both. *)
Theorem vec2pol_two_arguments_swaps_atan2 :
  vec2pol_packed [1; 0] = [1; arctan2 0 1]
  /\ vec2pol 1 0 = (1, PI / 2)
  /\ snd (vec2pol 1 0) <> arctan2 0 1
  /\ (forall x y : R, vec2pol x y = (sqrt (x * x + y * y), arctan2 x y))
  /\ (forall x y : R, vec2pol_packed [x; y] = [sqrt (x * x + y * y); arctan2 y x]).
Proof.
  pose proof PI_bounds.
  unfold vec2pol, vec2pol_packed; simpl.
  rewrite sqrt_1_0, arctan2_1_0, arctan2_0_1.
  repeat split; try reflexivity. lra.
Qed.

(** ** [arctan2] and [norm] *)

Lemma atan_pos (x : R) : 0 < x -> 0 < atan x.
Proof. intros H. rewrite <- atan_0. now apply atan_increasing. Qed.

Lemma atan_neg (x : R) : x < 0 -> atan x < 0.
Proof. intros H. rewrite <- atan_0. now apply atan_increasing. Qed.

Lemma arctan2_bound (y x : R) : - PI < arctan2 y x <= PI.
Proof.
  pose proof PI_RGT_0 as HPI. unfold arctan2.
  destruct (Rlt_dec 0 x) as [Hx | Hx].
  - pose proof (atan_bound (y / x)). lra.
  - destruct (Rlt_dec x 0) as [Hx' | Hx'].
    + pose proof (atan_bound (y / x)) as Hb.
      assert (Hinv : / x < 0) by now apply Rinv_lt_0_compat.
      destruct (Rle_dec 0 y) as [Hy | Hy].
      * destruct (Req_dec_T y 0) as [-> | Hy0].
        -- replace (0 / x) with 0 by (field; lra). rewrite atan_0. lra.
        -- assert (y / x < 0) by (unfold Rdiv; nra).
           pose proof (atan_neg (y / x)). lra.
      * assert (0 < y / x) by (unfold Rdiv; nra).
        pose proof (atan_pos (y / x)). lra.
    + destruct (Rlt_dec 0 y); [lra |]. destruct (Rlt_dec y 0); lra.
Qed.

Lemma arctan2_0_0 : arctan2 0 0 = 0.
Proof.
  unfold arctan2. destruct (Rlt_dec 0 0); [lra | reflexivity].
Qed.

Lemma sumsq_nonneg (v : list R) : 0 <= sumsq v.
Proof. induction v as [| x v IH]; simpl; [lra | nra]. Qed.

Lemma norm_nonneg (v : list R) : 0 <= norm v.
Proof. apply sqrt_pos. Qed.

Lemma norm_sqr (v : list R) : norm v * norm v = sumsq v.
Proof. apply sqrt_sqrt, sumsq_nonneg. Qed.

Lemma norm3_sqr (x y z : R) : norm [x; y; z] * norm [x; y; z] = x * x + y * y + z * z.
Proof. rewrite norm_sqr. simpl. ring. Qed.

Lemma norm3_zero (x y z : R) : norm [x; y; z] = 0 -> x = 0 /\ y = 0 /\ z = 0.
Proof.
  intros H. pose proof (norm3_sqr x y z) as Hs. rewrite H in Hs.
  repeat split; nra.
Qed.

Lemma radius_pos (v : list R) : 0 < radius v.
Proof.
  unfold radius. pose proof (norm_nonneg v).
  destruct (Req_dec_T (norm v) 0); lra.
Qed.

Lemma radius_zero : radius [0; 0; 0] = 1.
Proof.
  unfold radius. destruct (Req_dec_T (norm [0; 0; 0]) 0) as [_ | H]; [reflexivity |].
  exfalso. apply H. unfold norm. simpl.
  replace (0 * 0 + (0 * 0 + (0 * 0 + 0))) with 0 by ring. apply sqrt_0.
Qed.

Lemma normalised_bound (x y z : R) :
  - 1 <= z / radius [x; y; z] <= 1.
Proof.
  pose proof (radius_pos [x; y; z]) as Hr.
  assert (Hz : z * z <= radius [x; y; z] * radius [x; y; z]).
  { unfold radius in *. destruct (Req_dec_T (norm [x; y; z]) 0) as [H0 | H0].
    - apply norm3_zero in H0. destruct H0 as (_ & _ & ->). lra.
    - rewrite norm3_sqr. nra. }
  assert (Habs : - radius [x; y; z] <= z <= radius [x; y; z]) by nra.
  split.
  - apply Rmult_le_reg_r with (radius [x; y; z]); [assumption |].
    replace (z / radius [x; y; z] * radius [x; y; z]) with z by (field; lra). lra.
  - apply Rmult_le_reg_r with (radius [x; y; z]); [assumption |].
    replace (z / radius [x; y; z] * radius [x; y; z]) with z by (field; lra). lra.
Qed.

(** At the upper pole the horizontal components vanish. *)
Lemma normalised_pole (x y z : R) :
  z / radius [x; y; z] = 1 -> x = 0 /\ y = 0.
Proof.
  intros H. pose proof (radius_pos [x; y; z]) as Hr.
  assert (Hz : z = radius [x; y; z]).
  { replace z with (z / radius [x; y; z] * radius [x; y; z]) at 1 by (field; lra).
    rewrite H. ring. }
  unfold radius in Hz, Hr. destruct (Req_dec_T (norm [x; y; z]) 0) as [H0 | H0].
  - apply norm3_zero in H0. tauto.
  - pose proof (norm3_sqr x y z) as Hs. rewrite <- Hz in Hs. split; nra.
Qed.

Lemma acos_zero_inv (t : R) : - 1 <= t <= 1 -> acos t <= 0 -> t = 1.
Proof.
  intros Ht Ha. pose proof (acos_bound t) as Hb.
  assert (H0 : acos t = 0) by lra.
  rewrite <- (cos_acos t Ht), H0. apply cos_0.
Qed.

(** ** [sphadj] on scalars *)

Lemma sphadj_scalar (fuel : nat) (theta phi : R) (h : heap) :
  - PI / 2 <= theta <= PI / 2 -> - PI < phi <= PI ->
  (theta = PI / 2 -> phi = 0) ->
  sphadj (S (S fuel)) (Some (Scalar theta)) (Some (Scalar phi)) h =
  Ok (Some (Scalar theta),
      Some (Scalar (if Req_dec_T phi PI then - PI else phi)), h).
Proof.
  intros Ht Hp Hpole. pose proof PI_bounds as HPI.
  unfold sphadj, Sphadj.sphadj, Sphadj.elevation. simpl contents. simpl forallb.
  destruct (Req_dec_T theta (PI / 2)) as [Htop | Htop].
  - rewrite (Hpole Htop). subst theta. simpl. Rdecide.
    replace (PI - PI / 2) with (PI / 2) by lra. reflexivity.
  - destruct (Req_dec_T phi PI) as [HpPI | HpPI].
    + subst phi. simpl. Rdecide.
      replace (PI + - (2 * PI)) with (- PI) by lra. reflexivity.
    + simpl. Rdecide. reflexivity.
Qed.

(** ** [vec2sph] on a single vector *)

Lemma np_div_ok (x r : R) : r <> 0 -> np_div x r = Ok (x / r).
Proof. intros H. unfold np_div. destruct (Req_dec_T r 0); [contradiction | reflexivity]. Qed.

Lemma arccos_ok (t : R) : - 1 <= t <= 1 -> arccos t = Ok (acos t).
Proof.
  intros [Hlo Hhi]. unfold arccos.
  destruct (Rle_dec (-1) t); [| lra]. destruct (Rle_dec t 1); [reflexivity | lra].
Qed.

Lemma vec2sph_single (fuel : nat) (a : loc) (h : heap) (x y z : R) :
  read h a = [x; y; z] ->
  vec2sph (S (S fuel)) (Vec1 a) h =
  Ok (Flat [PI / 2 - acos (z / radius [x; y; z]);
            (if Req_dec_T (arctan2 (x / radius [x; y; z]) (y / radius [x; y; z])) PI
             then - PI
             else arctan2 (x / radius [x; y; z]) (y / radius [x; y; z]));
            radius [x; y; z]], h).
Proof.
  intros Hread. unfold vec2sph. rewrite Hread.
  pose proof (radius_pos [x; y; z]) as Hr.
  set (r := radius [x; y; z]) in *.
  assert (Hr0 : r <> 0) by lra.
  simpl map_result. rewrite !np_div_ok by assumption. simpl.
  rewrite arccos_ok by apply normalised_bound. simpl.
  pose proof (acos_bound (z / r)) as Hac.
  rewrite sphadj_scalar.
  - reflexivity.
  - lra.
  - apply arctan2_bound.
  - intros Htop.
    assert (Hz : z / r = 1).
    { apply acos_zero_inv; [apply normalised_bound | lra]. }
    destruct (normalised_pole x y z Hz) as [-> ->].
    replace (0 / r) with 0 by (field; assumption). apply arctan2_0_0.
Qed.

Lemma radius_unit_x : radius [1; 0; 0] = 1.
Proof.
  assert (Hn : norm [1; 0; 0] = 1).
  { unfold norm. simpl.
    replace (1 * 1 + (0 * 0 + (0 * 0 + 0))) with 1 by ring. apply sqrt_1. }
  unfold radius. rewrite Hn. destruct (Req_dec_T 1 0); [lra | reflexivity].
Qed.

(** C8: [vec2sph] of the single vector [(1, 0, 0)] is
    [(theta, phi, rho) = (0, pi/2, 1)], and [sph2vec] of that triple is
    [(1, 0, 0)]: the azimuth is measured from the y axis, with
    [x = rho*sin(phi)*cos(theta)], [y = rho*cos(phi)*cos(theta)],
    [z = rho*sin(theta)]. *)
Theorem vec2sph_unit_x_and_back (fuel : nat) :
  vec2sph (S (S fuel)) (Vec1 0%nat) [[1; 0; 0]]
  = Ok (Flat [0; PI / 2; 1], [[1; 0; 0]])
  /\ sph2vec_packed (Flat [0; PI / 2; 1]) = Ok (Flat [1; 0; 0])
  /\ (forall theta phi rho : R,
        sph2vec theta phi rho =
        [rho * (sin phi * cos theta); rho * (cos phi * cos theta);
         rho * sin theta]).
Proof.
  pose proof PI_bounds as HPI. split; [| split].
  - rewrite (vec2sph_single fuel 0%nat [[1; 0; 0]] 1 0 0) by reflexivity.
    rewrite radius_unit_x.
    replace (1 / 1) with 1 by field. replace (0 / 1) with 0 by field.
    rewrite arctan2_1_0, acos_0.
    destruct (Req_dec_T (PI / 2) PI); [lra |].
    replace (PI / 2 - PI / 2) with 0 by lra. reflexivity.
  - unfold sph2vec_packed, unpack, sph2vec. simpl.
    rewrite sin_PI2, cos_PI2, cos_0, sin_0.
    repeat f_equal; ring.
  - reflexivity.
Qed.

(** C7: on every single 3-vector, the zero vector included, [vec2sph]
    finishes (two tests of each loop condition are enough) with real values:
    the divisor is never zero, the elevation lies in [[-pi/2, pi/2]] and the
    azimuth in [[-pi, pi)]; the heap is left as it was.  For the zero vector
    the divisor is 1 and the answer is [(0, 0, 1)]. *)
Theorem vec2sph_single_finite_in_range
    (fuel : nat) (a : loc) (h : heap) (x y z : R) :
  read h a = [x; y; z] ->
  exists theta phi : R,
    vec2sph (S (S fuel)) (Vec1 a) h = Ok (Flat [theta; phi; radius [x; y; z]], h)
    /\ radius [x; y; z] <> 0
    /\ - PI / 2 <= theta <= PI / 2
    /\ - PI <= phi < PI
    /\ (x = 0 -> y = 0 -> z = 0 ->
        radius [x; y; z] = 1 /\ theta = 0 /\ phi = 0).
Proof.
  intros Hread. pose proof PI_bounds as HPI.
  rewrite (vec2sph_single fuel a h x y z Hread).
  pose proof (radius_pos [x; y; z]) as Hr.
  pose proof (acos_bound (z / radius [x; y; z])) as Hac.
  pose proof (arctan2_bound (x / radius [x; y; z]) (y / radius [x; y; z])) as Hat.
  eexists. eexists. split; [reflexivity |].
  split; [lra |]. split; [lra |]. split.
  - destruct (Req_dec_T _ PI); lra.
  - intros -> -> ->. rewrite radius_zero.
    replace (0 / 1) with 0 by field.
    rewrite arctan2_0_0, acos_0.
    destruct (Req_dec_T 0 PI); [lra |]. repeat split; lra.
Qed.

Lemma vec2sph_single_finite_in_range_witness :
  exists theta phi : R,
    vec2sph 2 (Vec1 0%nat) [[0; 0; 0]] = Ok (Flat [theta; phi; radius [0; 0; 0]], [[0; 0; 0]])
    /\ radius [0; 0; 0] <> 0
    /\ - PI / 2 <= theta <= PI / 2
    /\ - PI <= phi < PI
    /\ (0 = 0 -> 0 = 0 -> 0 = 0 -> radius [0; 0; 0] = 1 /\ theta = 0 /\ phi = 0).
Proof.
  apply (vec2sph_single_finite_in_range 0 0%nat [[0; 0; 0]] 0 0 0). reflexivity.
Defined.

(** ** The heap *)

Lemma length_write (h : heap) (a : loc) (l : list R) :
  length (write h a l) = length h.
Proof.
  revert a. induction h as [| c h IH]; intros [| a]; simpl; try reflexivity.
  now rewrite IH.
Qed.

Lemma read_write_same (h : heap) (a : loc) (l : list R) :
  (a < length h)%nat -> read (write h a l) a = l.
Proof.
  unfold read. revert a. induction h as [| c h IH]; intros [| a] Ha; simpl in *;
    try lia; try reflexivity.
  apply IH. lia.
Qed.

Lemma read_write_other (h : heap) (a b : loc) (l : list R) :
  a <> b -> read (write h a l) b = read h b.
Proof.
  unfold read. revert a b. induction h as [| c h IH]; intros [| a] [| b] Hab; simpl;
    try reflexivity; try congruence.
  apply IH. congruence.
Qed.

Lemma write_out_of_range (h : heap) (a : loc) (l : list R) :
  (length h <= a)%nat -> write h a l = h.
Proof.
  revert a. induction h as [| c h IH]; intros [| a] Ha; simpl in *;
    try reflexivity; try lia.
  f_equal. apply IH. lia.
Qed.

Lemma write_read (h : heap) (a : loc) : write h a (read h a) = h.
Proof.
  unfold read. revert a. induction h as [| c h IH]; intros [| a]; simpl;
    try reflexivity.
  f_equal. apply IH.
Qed.

Lemma write_write (h : heap) (a : loc) (l l' : list R) :
  write (write h a l) a l' = write h a l'.
Proof.
  revert a. induction h as [| c h IH]; intros [| a]; simpl; try reflexivity.
  f_equal. apply IH.
Qed.

Lemma read_alloc_new (h : heap) (l : list R) : read (h ++ [l]) (length h) = l.
Proof. unfold read. rewrite app_nth2, Nat.sub_diag by lia. reflexivity. Qed.

Lemma read_alloc_old (h : heap) (l : list R) (a : loc) :
  (a < length h)%nat -> read (h ++ [l]) a = read h a.
Proof. intros Ha. unfold read. now rewrite app_nth1. Qed.

Lemma write_alloc_new (h : heap) (l l' : list R) :
  write (h ++ [l]) (length h) l' = h ++ [l'].
Proof. induction h as [| c h IH]; simpl; [reflexivity | now rewrite IH]. Qed.

(** ** [vec2sph] on a batch *)

Lemma row_div_mismatch (row rho : list R) :
  length row = 3%nat -> length rho <> 1%nat -> length rho <> 3%nat ->
  row_div row rho = Raise BroadcastMismatch.
Proof.
  intros Hrow H1 H3. unfold row_div. rewrite Hrow.
  destruct (Nat.eqb_spec 3 (length rho)) as [E | _]; [congruence |].
  destruct rho as [| r [| r' rho]]; simpl in *; try congruence;
    destruct row as [| x [| x' row]]; simpl in *; try reflexivity; discriminate.
Qed.

(** The guarded radii of a batch, as [vec / rho] reads them. *)
Lemma vec2sph_batch_unfold (fuel : nat) (rows : list (list R)) (h : heap) :
  vec2sph fuel (Vec2 rows) h =
  (let rho := length h in
   let h2 := h ++ [map (fun x => if Reqb x 0 then 1 else x) (map norm rows)] in
   v <- broadcast_div rows (read h2 rho) ;;
   phi0 <- map_result (fun row => v0 <- item row 0 ;; v1 <- item row 1 ;;
                                   Ok (arctan2 v0 v1)) v ;;
   theta0 <- map_result (fun row => v2 <- item row 2 ;; ac <- arccos v2 ;;
                                     Ok (PI / 2 - ac)) v ;;
   let (phi, h3) := alloc h2 phi0 in
   let (theta, h4) := alloc h3 theta0 in
   '(theta', phi', h') <- sphadj fuel (Some (Array theta)) (Some (Array phi)) h4 ;;
   t <- the theta' ;;
   p <- the phi' ;;
   r <- pack t p (Array rho) h' ;;
   Ok (r, h')).
Proof.
  unfold vec2sph, alloc. rewrite read_alloc_new, write_alloc_new. reflexivity.
Qed.

(** A batch of rows of three components whose number of rows is neither 1
    nor 3 cannot be divided by the array of its radii. *)
Lemma vec2sph_batch_mismatch (fuel : nat) (h : heap) (row : list R)
    (rows : list (list R)) :
  length row = 3%nat -> length rows <> 0%nat -> length rows <> 2%nat ->
  vec2sph fuel (Vec2 (row :: rows)) h = Raise BroadcastMismatch.
Proof.
  intros Hrow H1 H3. rewrite vec2sph_batch_unfold. cbv zeta.
  rewrite read_alloc_new. unfold broadcast_div. cbn [map_result].
  rewrite row_div_mismatch; [reflexivity | assumption | |];
    rewrite !length_map; simpl; lia.
Qed.

Lemma vec2sph_two_rows (fuel : nat) (h : heap) :
  vec2sph fuel (Vec2 [[1; 0; 0]; [0; 1; 0]]) h = Raise BroadcastMismatch.
Proof. apply vec2sph_batch_mismatch; simpl; lia. Qed.

Lemma norm_0_0_2 : norm [0; 0; 2] = 2.
Proof.
  unfold norm. simpl.
  replace (0 * 0 + (0 * 0 + (2 * 2 + 0))) with (2 * 2) by ring.
  apply sqrt_square. lra.
Qed.

Lemma norm_1_0_0 : norm [1; 0; 0] = 1.
Proof.
  unfold norm. simpl.
  replace (1 * 1 + (0 * 0 + (0 * 0 + 0))) with 1 by ring. apply sqrt_1.
Qed.

Lemma norm_0_1_0 : norm [0; 1; 0] = 1.
Proof.
  unfold norm. simpl.
  replace (0 * 0 + (1 * 1 + (0 * 0 + 0))) with 1 by ring. apply sqrt_1.
Qed.

Lemma vec2sph_three_rows (fuel : nat) (h : heap) :
  vec2sph fuel (Vec2 [[0; 0; 2]; [1; 0; 0]; [0; 1; 0]]) h = NonFinite.
Proof.
  rewrite vec2sph_batch_unfold. cbv zeta. rewrite read_alloc_new.
  cbn [map]. rewrite norm_0_0_2, norm_1_0_0, norm_0_1_0.
  simpl. Rdecide.
  unfold broadcast_div, row_div. simpl.
  rewrite !np_div_ok by lra. simpl.
  unfold arccos. Rdecide. reflexivity.
Qed.

Lemma radius_0_0_2 : radius [0; 0; 2] = 2.
Proof.
  unfold radius. rewrite norm_0_0_2. destruct (Req_dec_T 2 0); [lra | reflexivity].
Qed.

(** C2: on the 2-by-3 batch [[[1, 0, 0], [0, 1, 0]]] [vec2sph] raises: the
    array of the two radii cannot be broadcast against rows of three
    components.  On the 3-by-3 batch [[[0, 0, 2], [1, 0, 0], [0, 1, 0]]] it
    runs but divides by the radii of the columns and meets [arccos 2], while
    for the row [(0, 0, 2)] alone it returns [(pi/2, 0, 2)]. *)
Theorem vec2sph_batch_of_two_raises (fuel : nat) (h : heap) :
  vec2sph fuel (Vec2 [[1; 0; 0]; [0; 1; 0]]) h = Raise BroadcastMismatch
  /\ vec2sph fuel (Vec2 [[0; 0; 2]; [1; 0; 0]; [0; 1; 0]]) h = NonFinite
  /\ vec2sph (S (S fuel)) (Vec1 0%nat) [[0; 0; 2]]
     = Ok (Flat [PI / 2; 0; 2], [[0; 0; 2]]).
Proof.
  pose proof PI_bounds as HPI.
  split; [apply vec2sph_two_rows |]. split; [apply vec2sph_three_rows |].
  rewrite (vec2sph_single fuel 0%nat [[0; 0; 2]] 0 0 2) by reflexivity.
  rewrite radius_0_0_2.
  replace (2 / 2) with 1 by field. replace (0 / 2) with 0 by field.
  rewrite arctan2_0_0, acos_1.
  destruct (Req_dec_T 0 PI); [lra |].
  replace (PI / 2 - 0) with (PI / 2) by ring. reflexivity.
Qed.

(** ** [sphadj] on arrays: the elevation *)

(** C4: with [theta = [3, 0]] and [phi = [1, 1]] (default bounds) the first
    elevation is folded to [pi - 3] and the second is kept, but no azimuth is
    shifted: the mask of the shift is taken on the elevations after the fold,
    where [pi - 3 < pi/2].  With [theta = [3, -3, 0]] the entry below
    [theta_min] is not folded at all, the branches being exclusive. *)
Theorem sphadj_partial_fold_misses_shift (fuel : nat) :
  Sphadj.elevation (Some (Array 0%nat)) (Some (Array 1%nat)) (- PI / 2) (PI / 2)
    [[3; 0]; [1; 1]]
  = Ok (Some (Array 0%nat), Some (Array 1%nat), [[PI - 3; 0]; [1; 1]])
  /\ sphadj (S fuel) (Some (Array 0%nat)) (Some (Array 1%nat)) [[3; 0]; [1; 1]]
     = Ok (Some (Array 0%nat), Some (Array 1%nat), [[PI - 3; 0]; [1; 1]])
  /\ Sphadj.elevation (Some (Array 0%nat)) (Some (Array 1%nat)) (- PI / 2) (PI / 2)
       [[3; -3; 0]; [1; 1; 1]]
     = Ok (Some (Array 0%nat), Some (Array 1%nat), [[PI - 3; -3; 0]; [1; 1; 1]]).
Proof.
  pose proof PI_bounds as HPI.
  assert (E : Sphadj.elevation (Some (Array 0%nat)) (Some (Array 1%nat))
                (- PI / 2) (PI / 2) [[3; 0]; [1; 1]]
              = Ok (Some (Array 0%nat), Some (Array 1%nat), [[PI - 3; 0]; [1; 1]])).
  { unfold Sphadj.elevation, Sphadj.shift_where, mask_iadd. simpl. Rdecide. reflexivity. }
  split; [exact E |]. split.
  - unfold sphadj, Sphadj.sphadj. rewrite E. simpl. Rdecide. reflexivity.
  - unfold Sphadj.elevation, Sphadj.shift_where, mask_iadd. simpl. Rdecide. reflexivity.
Qed.

Lemma np_all_zero (p : ndval) (h : heap) :
  In 0 (contents h p) -> np_all (Some p) h = false.
Proof.
  intros Hin. unfold np_all.
  destruct (forallb (fun x => negb (Reqb x 0)) (contents h p)) eqn:E; [| reflexivity].
  rewrite forallb_forall in E. specialize (E 0 Hin).
  rewrite (Reqb_true 0 0) in E by reflexivity. discriminate.
Qed.

Lemma contents_allocated (p : ndval) (h : heap) (x : R) :
  In x (contents h p) ->
  match p with Array b => (b < length h)%nat | Scalar _ => True end.
Proof.
  destruct p as [r | b]; simpl; [trivial |]. unfold read. intros Hin.
  destruct (Nat.lt_ge_cases b (length h)) as [Hlt | Hge]; [assumption |].
  rewrite nth_overflow in Hin by assumption. contradiction.
Qed.

Lemma contents_alloc (p : ndval) (h : heap) (l : list R) (x : R) :
  In x (contents h p) -> contents (h ++ [l]) p = contents h p.
Proof.
  intros Hin. pose proof (contents_allocated p h x Hin) as Ha.
  destruct p as [r | b]; simpl; [reflexivity |]. now apply read_alloc_old.
Qed.

Lemma contents_write_other (p : ndval) (a : loc) (h : heap) (l : list R) :
  ~ aliased (Array a) p -> contents (write h a l) p = contents h p.
Proof.
  destruct p as [r | b]; simpl; intros Hne; [reflexivity |].
  now apply read_write_other.
Qed.

Lemma forallb_singleton (f : R -> bool) (r : R) : forallb f [r] = f r.
Proof. simpl. apply andb_true_r. Qed.

Lemma existsb_singleton (f : R -> bool) (r : R) : existsb f [r] = f r.
Proof. simpl. apply orb_false_r. Qed.

(** C10: when the azimuth holds a zero somewhere (and is not the very array
    of the elevations), the elevation step of [sphadj] folds the elevations as
    it does without an azimuth and shifts no entry of [phi], whatever was
    folded. *)
Theorem sphadj_zero_azimuth_blocks_shift
    (t p : ndval) (theta_min theta_max : R) (h : heap) :
  ~ aliased t p -> In 0 (contents h p) ->
  exists (t' : ndval) (h' : heap),
    Sphadj.elevation (Some t) (Some p) theta_min theta_max h
    = Ok (Some t', Some p, h')
    /\ contents h' p = contents h p
    /\ Sphadj.elevation (Some t) None theta_min theta_max h
       = Ok (Some t', None, h').
Proof.
  intros Hal Hin. unfold Sphadj.elevation.
  destruct t as [r | a].
  - (* a scalar elevation: the masked branches are never reached *)
    simpl contents. rewrite !forallb_singleton, !existsb_singleton.
    unfold Sphadj.shift_all. simpl rsub. cbv iota beta.
    rewrite (np_all_zero p h Hin).
    destruct (Rgeb r theta_max); [eauto |].
    destruct (Rltb r theta_min); eauto.
  - simpl contents. unfold Sphadj.shift_all, Sphadj.shift_where, rsub, alloc, mask_rsub.
    assert (Hnew : forall l, np_all (Some p) (h ++ [l]) = false).
    { intros l. apply np_all_zero. erewrite contents_alloc; eassumption. }
    assert (Hwr : forall l, np_all (Some p) (write h a l) = false).
    { intros l. apply np_all_zero. now rewrite contents_write_other. }
    destruct (forallb _ (read h a)).
    { rewrite Hnew. do 2 eexists. split; [reflexivity |]. split; [| reflexivity].
      eapply contents_alloc; eassumption. }
    destruct (forallb _ (read h a)).
    { rewrite Hnew. do 2 eexists. split; [reflexivity |]. split; [| reflexivity].
      eapply contents_alloc; eassumption. }
    destruct (existsb _ (read h a)).
    { cbn [rbind]. rewrite Hwr. do 2 eexists. split; [reflexivity |]. split; [| reflexivity].
      now apply contents_write_other. }
    destruct (existsb _ (read h a)).
    { cbn [rbind]. rewrite Hwr. do 2 eexists. split; [reflexivity |]. split; [| reflexivity].
      now apply contents_write_other. }
    eauto.
Qed.

Lemma sphadj_zero_azimuth_blocks_shift_witness :
  exists (t' : ndval) (h' : heap),
    Sphadj.elevation (Some (Array 0%nat)) (Some (Array 1%nat)) (- PI / 2) (PI / 2)
      [[3; 0]; [0; 1]]
    = Ok (Some t', Some (Array 1%nat), h')
    /\ contents h' (Array 1%nat) = contents [[3; 0]; [0; 1]] (Array 1%nat)
    /\ Sphadj.elevation (Some (Array 0%nat)) None (- PI / 2) (PI / 2) [[3; 0]; [0; 1]]
       = Ok (Some t', None, h').
Proof.
  apply (sphadj_zero_azimuth_blocks_shift (Array 0%nat) (Array 1%nat)).
  - simpl. lia.
  - simpl. left. reflexivity.
Defined.

(** ** [sphadj] on arrays: the azimuth *)

Section Loops.

Context {St : Type}.
Variables (cond : St -> bool) (body : St -> St).

Lemma iterate_while_more (fuel fuel' : nat) (s s' : St) :
  iterate_while fuel cond body s = Some s' -> (fuel <= fuel')%nat ->
  iterate_while fuel' cond body s = Some s'.
Proof.
  revert fuel' s. induction fuel as [| fuel IH]; intros fuel' s H Hle;
    [discriminate |].
  destruct fuel' as [| fuel']; [lia |]. simpl in *.
  destruct (cond s); [| assumption]. apply IH; [assumption | lia].
Qed.

(** A loop whose body keeps an invariant and lowers a measure finishes,
    with the invariant and the negated condition. *)
Lemma iterate_while_finishes (I : St -> Prop) (mu : St -> nat) :
  (forall s, I s -> cond s = true -> I (body s) /\ (mu (body s) < mu s)%nat) ->
  forall (fuel : nat) (s : St), I s -> (mu s < fuel)%nat ->
  exists s', iterate_while fuel cond body s = Some s' /\ I s' /\ cond s' = false.
Proof.
  intros Hstep. induction fuel as [| fuel IH]; intros s Hs Hmu; [lia |].
  simpl. destruct (cond s) eqn:Hc.
  - destruct (Hstep s Hs Hc) as [Hs' Hlt]. apply IH; [assumption | lia].
  - eauto.
Qed.

Lemma iterate_while_enough (I : St -> Prop) (mu : St -> nat) :
  (forall s, I s -> cond s = true -> I (body s) /\ (mu (body s) < mu s)%nat) ->
  forall s : St, I s ->
  exists s', I s' /\ cond s' = false
             /\ forall fuel, (mu s < fuel)%nat ->
                  iterate_while fuel cond body s = Some s'.
Proof.
  intros Hstep s Hs.
  destruct (iterate_while_finishes I mu Hstep (S (mu s)) s Hs (Nat.lt_succ_diag_r _))
    as (s' & Hrun & Hs' & Hc).
  exists s'. repeat split; try assumption.
  intros fuel Hfuel. apply iterate_while_more with (fuel := S (mu s)); [assumption | lia].
Qed.

End Loops.

(** The loops of [sphadj] on an array object follow the loop on its
    contents. *)
Lemma while_array (fuel : nat) (cond : list R -> bool)
    (body : ndval -> heap -> result (ndval * heap)) (step : list R -> list R)
    (a : loc) (h : heap) :
  (a < length h)%nat ->
  (forall h', (a < length h')%nat ->
     body (Array a) h' = Ok (Array a, write h' a (step (read h' a)))) ->
  Sphadj.while fuel (fun p h => cond (contents h p)) body (Array a) h =
  match iterate_while fuel cond step (read h a) with
  | Some l => Ok (Array a, write h a l)
  | None => OutOfFuel
  end.
Proof.
  intros Ha Hbody. revert h Ha.
  induction fuel as [| fuel IH]; intros h Ha; [reflexivity |].
  simpl. destruct (cond (read h a)).
  - rewrite Hbody by assumption. cbn [rbind].
    rewrite IH by (now rewrite length_write).
    rewrite read_write_same by assumption.
    destruct (iterate_while fuel cond step (step (read h a))); [| reflexivity].
    now rewrite write_write.
  - now rewrite write_read.
Qed.

(** On a scalar the value is rebound and the heap is left alone. *)
Lemma while_scalar (fuel : nat) (cond : list R -> bool) (c r : R) (h : heap) :
  Sphadj.while fuel (fun p h => cond (contents h p))
    (fun p h => Ok (iadd p c h)) (Scalar r) h =
  match iterate_while fuel (fun x => cond [x]) (fun x => x + c) r with
  | Some r' => Ok (Scalar r', h)
  | None => OutOfFuel
  end.
Proof.
  revert r. induction fuel as [| fuel IH]; intros r; [reflexivity |].
  simpl. destruct (cond [r]); [| reflexivity]. apply IH.
Qed.

Lemma add_where_map (m : R -> bool) (c : R) (l : list R) :
  add_where (map m l) c l = map (fun x => if m x then x + c else x) l.
Proof. induction l as [| x l IH]; simpl; [reflexivity | now rewrite IH]. Qed.

Lemma iadd_where_array (m : R -> bool) (c : R) (a : loc) (h : heap) :
  Sphadj.iadd_where m c (Array a) h =
  Ok (Array a, write h a (map (fun x => if m x then x + c else x) (read h a))).
Proof.
  unfold Sphadj.iadd_where, mask_iadd. simpl contents.
  rewrite length_map, Nat.eqb_refl, add_where_map. reflexivity.
Qed.

Lemma two_pi_pos : 0 < 2 * PI.
Proof. pose proof PI_RGT_0. lra. Qed.

Lemma steps_up_decreases (phi_min x : R) :
  x < phi_min -> (steps_up phi_min (x + 2 * PI) < steps_up phi_min x)%nat.
Proof.
  intros Hx. pose proof two_pi_pos as Hp. unfold steps_up.
  replace ((phi_min - (x + 2 * PI)) / (2 * PI))
    with ((phi_min - x) / (2 * PI) + IZR (- 1)) by (field; lra).
  rewrite Zceil_addz.
  assert (Hq : 0 < (phi_min - x) / (2 * PI)).
  { apply Rmult_lt_0_compat; [lra | apply Rinv_0_lt_compat; lra]. }
  pose proof (Zceil_bound ((phi_min - x) / (2 * PI))) as [_ Hc].
  assert (0 < Zceil ((phi_min - x) / (2 * PI)))%Z by (apply lt_IZR; lra).
  lia.
Qed.

Lemma steps_down_decreases (phi_max x : R) :
  phi_max <= x ->
  (steps_down phi_max (x + - (2 * PI)) < steps_down phi_max x)%nat.
Proof.
  intros Hx. pose proof two_pi_pos as Hp. unfold steps_down.
  replace ((x + - (2 * PI) - phi_max) / (2 * PI))
    with ((x - phi_max) / (2 * PI) + IZR (- 1)) by (field; lra).
  rewrite Zfloor_addz.
  assert (Hq : 0 <= (x - phi_max) / (2 * PI)).
  { apply Rmult_le_pos; [lra | left; apply Rinv_0_lt_compat; lra]. }
  assert (0 <= Zfloor ((x - phi_max) / (2 * PI)))%Z.
  { apply Zfloor_lub. simpl. lra. }
  lia.
Qed.

(** The measure of a list, and how a step applied to every element lowers
    it. *)
Lemma list_sum_map_le (mu : R -> nat) (g : R -> R) (l : list R) :
  (forall x, (mu (g x) <= mu x)%nat) ->
  (list_sum (map mu (map g l)) <= list_sum (map mu l))%nat.
Proof.
  intros Hle. induction l as [| x l IH]; simpl; [lia |].
  specialize (Hle x). lia.
Qed.

Lemma list_sum_map_lt (mu : R -> nat) (g : R -> R) (m : R -> bool) (l : list R) :
  (forall x, (mu (g x) <= mu x)%nat) ->
  (forall x, m x = true -> (mu (g x) < mu x)%nat) ->
  existsb m l = true ->
  (list_sum (map mu (map g l)) < list_sum (map mu l))%nat.
Proof.
  intros Hle Hlt. induction l as [| x l IH]; simpl; [discriminate |].
  intros Hex. pose proof (list_sum_map_le mu g l Hle) as Hl.
  destruct (m x) eqn:Hm.
  - specialize (Hlt x Hm). lia.
  - simpl in Hex. specialize (IH Hex). specialize (Hle x). lia.
Qed.

Lemma forallb_existsb (m : R -> bool) (l : list R) :
  l <> [] -> forallb m l = true -> existsb m l = true.
Proof.
  destruct l as [| x l]; [congruence |]. simpl. intros _ H.
  apply andb_true_iff in H. destruct H as [-> _]. reflexivity.
Qed.

Lemma map_where_all (m : R -> bool) (c : R) (l : list R) :
  forallb m l = true ->
  map (fun x => if m x then x + c else x) l = map (fun x => x + c) l.
Proof.
  induction l as [| x l IH]; simpl; [reflexivity |]. intros H.
  apply andb_true_iff in H. destruct H as [-> H]. now rewrite IH.
Qed.

Lemma existsb_false_forall (m : R -> bool) (l : list R) :
  existsb m l = false -> Forall (fun x => m x = false) l.
Proof.
  induction l as [| x l IH]; simpl; intros H; constructor.
  - now apply orb_false_iff in H.
  - apply IH. now apply orb_false_iff in H.
Qed.

Section Azimuth.

Variables phi_min phi_max : R.
Hypothesis Hwidth : phi_max - phi_min = 2 * PI.

Lemma modulo_fold_shift (x : R) (k : Z) :
  modulo_fold phi_min phi_max (x + 2 * PI * IZR k) = modulo_fold phi_min phi_max x.
Proof.
  unfold modulo_fold. f_equal. rewrite Hwidth. pose proof two_pi_pos as Hp.
  apply np_mod_unique
    with (k := (Zfloor ((x - phi_min) / (2 * PI)) + k)%Z).
  - assumption.
  - now apply np_mod_bound.
  - unfold np_mod. rewrite plus_IZR. lra.
Qed.

Lemma modulo_fold_up (x : R) :
  modulo_fold phi_min phi_max (x + 2 * PI) = modulo_fold phi_min phi_max x.
Proof.
  rewrite <- (modulo_fold_shift x 1). f_equal. lra.
Qed.

Lemma modulo_fold_down (x : R) :
  modulo_fold phi_min phi_max (x + - (2 * PI)) = modulo_fold phi_min phi_max x.
Proof.
  rewrite <- (modulo_fold_shift x (- 1)). f_equal. lra.
Qed.

Lemma modulo_fold_id (x : R) :
  phi_min <= x < phi_max -> modulo_fold phi_min phi_max x = x.
Proof.
  intros Hx. unfold modulo_fold. pose proof two_pi_pos as Hp.
  rewrite (np_mod_unique (x - phi_min) (phi_max - phi_min) (x - phi_min) 0);
    lra.
Qed.

Lemma modulo_fold_bound (x : R) :
  phi_min <= modulo_fold phi_min phi_max x < phi_max.
Proof.
  unfold modulo_fold.
  assert (Hw : 0 < phi_max - phi_min) by (rewrite Hwidth; apply two_pi_pos).
  pose proof (np_mod_bound (x - phi_min) (phi_max - phi_min) Hw). lra.
Qed.

Let below (x : R) : bool := Rltb x phi_min.
Let above (x : R) : bool := Rgeb x phi_max.
Let up (x : R) : R := if below x then x + 2 * PI else x.
Let down (x : R) : R := if above x then x + - (2 * PI) else x.
Let mu_up (l : list R) : nat := list_sum (map (steps_up phi_min) l).
Let mu_down (l : list R) : nat := list_sum (map (steps_down phi_max) l).
Let same (l0 l : list R) : Prop :=
  map (modulo_fold phi_min phi_max) l = map (modulo_fold phi_min phi_max) l0.

Lemma up_fold (x : R) : modulo_fold phi_min phi_max (up x) = modulo_fold phi_min phi_max x.
Proof. unfold up. destruct (below x); [apply modulo_fold_up | reflexivity]. Qed.

Lemma down_fold (x : R) : modulo_fold phi_min phi_max (down x) = modulo_fold phi_min phi_max x.
Proof. unfold down. destruct (above x); [apply modulo_fold_down | reflexivity]. Qed.

Lemma same_up (l0 l : list R) : same l0 l -> same l0 (map up l).
Proof.
  unfold same. intros <-. rewrite map_map. apply map_ext. apply up_fold.
Qed.

Lemma same_down (l0 l : list R) : same l0 l -> same l0 (map down l).
Proof.
  unfold same. intros <-. rewrite map_map. apply map_ext. apply down_fold.
Qed.

Lemma mu_up_step (l : list R) :
  existsb below l = true -> (mu_up (map up l) < mu_up l)%nat.
Proof.
  apply list_sum_map_lt.
  - intros x. unfold up, below. destruct (Rltb x phi_min) eqn:E; [| lia].
    apply Rltb_spec in E. pose proof (steps_up_decreases phi_min x E). lia.
  - intros x E. unfold up. rewrite E. apply steps_up_decreases.
    now apply Rltb_spec.
Qed.

Lemma mu_down_step (l : list R) :
  existsb above l = true -> (mu_down (map down l) < mu_down l)%nat.
Proof.
  apply list_sum_map_lt.
  - intros x. unfold down, above. destruct (Rgeb x phi_max) eqn:E; [| lia].
    apply Rgeb_spec in E. pose proof (steps_down_decreases phi_max x E). lia.
  - intros x E. unfold down. rewrite E. apply steps_down_decreases.
    now apply Rgeb_spec.
Qed.

Lemma map_nonempty (g : R -> R) (l : list R) : l <> [] -> map g l <> [].
Proof. destruct l; simpl; congruence. Qed.

(** The four loops on the contents of a nonempty array. *)
Lemma azimuth_loops (l0 : list R) :
  l0 <> [] ->
  exists (n : nat) (l1 l2 l3 : list R),
    forall fuel, (n <= fuel)%nat ->
      iterate_while fuel (forallb below) (map (fun x => x + 2 * PI)) l0 = Some l1
      /\ iterate_while fuel (forallb above) (map (fun x => x + - (2 * PI))) l1 = Some l2
      /\ iterate_while fuel (existsb below) (map up) l2 = Some l3
      /\ iterate_while fuel (existsb above) (map down) l3
         = Some (map (modulo_fold phi_min phi_max) l0).
Proof.
  intros Hne.
  (* while (phi < phi_min).all() *)
  destruct (iterate_while_enough (forallb below) (map (fun x => x + 2 * PI))
              (fun l => l <> [] /\ same l0 l) mu_up) with (s := l0)
    as (l1 & [Hne1 Hs1] & _ & Hrun1).
  { intros l [Hl Hs] Hc. rewrite <- (map_where_all below) by assumption.
    repeat split.
    - now apply map_nonempty.
    - now apply same_up.
    - apply mu_up_step. now apply forallb_existsb. }
  { split; [assumption | reflexivity]. }
  (* while (phi >= phi_max).all() *)
  destruct (iterate_while_enough (forallb above) (map (fun x => x + - (2 * PI)))
              (fun l => l <> [] /\ same l0 l) mu_down) with (s := l1)
    as (l2 & [Hne2 Hs2] & _ & Hrun2).
  { intros l [Hl Hs] Hc. rewrite <- (map_where_all above) by assumption.
    repeat split.
    - now apply map_nonempty.
    - now apply same_down.
    - apply mu_down_step. now apply forallb_existsb. }
  { split; assumption. }
  (* while (phi < phi_min).any() *)
  destruct (iterate_while_enough (existsb below) (map up) (same l0) mu_up)
    with (s := l2) as (l3 & Hs3 & Hc3 & Hrun3).
  { intros l Hs Hc. split; [now apply same_up | now apply mu_up_step]. }
  { assumption. }
  (* while (phi >= phi_max).any() *)
  destruct (iterate_while_enough (existsb above) (map down)
              (fun l => same l0 l /\ Forall (fun x => phi_min <= x) l) mu_down)
    with (s := l3) as (l4 & [Hs4 Hlo4] & Hc4 & Hrun4).
  { intros l [Hs Hlo] Hc. repeat split.
    - now apply same_down.
    - apply Forall_map. eapply Forall_impl; [| exact Hlo].
      intros x Hx. unfold down, above.
      destruct (Rgeb x phi_max) eqn:E; [| assumption].
      apply Rgeb_spec in E. lra.
    - now apply mu_down_step. }
  { split; [assumption |].
    eapply Forall_impl; [| apply (existsb_false_forall _ _ Hc3)].
    intros x Hx. unfold below in Hx.
    destruct (Rlt_dec x phi_min) as [Hlt | Hge]; [| lra].
    rewrite (Rltb_true _ _ Hlt) in Hx. discriminate. }
  assert (Hfinal : l4 = map (modulo_fold phi_min phi_max) l0).
  { unfold same in Hs4. rewrite <- Hs4. symmetry.
    rewrite <- (map_id l4) at 2. apply map_ext_in.
    intros x Hx. apply modulo_fold_id. split.
    - rewrite Forall_forall in Hlo4. now apply Hlo4.
    - pose proof (existsb_false_forall _ _ Hc4) as Hhi.
      rewrite Forall_forall in Hhi. specialize (Hhi x Hx). unfold above in Hhi.
      destruct (Rlt_dec x phi_max) as [Hlt | Hge]; [assumption |].
      rewrite Rgeb_true in Hhi by lra. discriminate. }
  subst l4.
  exists (S (Nat.max (Nat.max (mu_up l0) (mu_down l1)) (Nat.max (mu_up l2) (mu_down l3)))),
    l1, l2, l3.
  intros fuel Hfuel. repeat split.
  - apply Hrun1. lia.
  - apply Hrun2. lia.
  - apply Hrun3. lia.
  - apply Hrun4. lia.
Qed.

End Azimuth.

Lemma read_nonempty_allocated (h : heap) (a : loc) :
  read h a <> [] -> (a < length h)%nat.
Proof.
  intros Hne. destruct (Nat.lt_ge_cases a (length h)) as [Hlt | Hge]; [assumption |].
  exfalso. apply Hne. unfold read. now apply nth_overflow.
Qed.

(** On a nonempty array and bounds [2*pi] apart, the azimuth step finishes
    and leaves in the array, in place, the remainders of the specification. *)
Lemma azimuth_array (phi_min phi_max : R) (a : loc) (h : heap) :
  phi_max - phi_min = 2 * PI -> read h a <> [] ->
  exists n : nat, forall fuel, (n <= fuel)%nat ->
    Sphadj.azimuth fuel (Some (Array a)) phi_min phi_max h
    = Ok (Some (Array a), write h a (map (modulo_fold phi_min phi_max) (read h a))).
Proof.
  intros Hw Hne. pose proof (read_nonempty_allocated h a Hne) as Ha.
  destruct (azimuth_loops phi_min phi_max Hw (read h a) Hne) as (n & l1 & l2 & l3 & Hrun).
  exists n. intros fuel Hfuel. destruct (Hrun fuel Hfuel) as (H1 & H2 & H3 & H4).
  unfold Sphadj.azimuth. cbv zeta.
  rewrite (while_array fuel (forallb (fun x => Rltb x phi_min)) _
             (map (fun x => x + 2 * PI)) a h Ha) by reflexivity.
  rewrite H1. cbn [rbind].
  rewrite (while_array fuel (forallb (fun x => Rgeb x phi_max)) _
             (map (fun x => x + - (2 * PI))) a)
    by (reflexivity || now rewrite length_write).
  rewrite read_write_same by assumption. rewrite H2. cbn [rbind]. rewrite write_write.
  rewrite (while_array fuel (existsb (fun x => Rltb x phi_min)) _
             (map (fun x => if Rltb x phi_min then x + 2 * PI else x)) a)
    by (now rewrite length_write || (intros; apply iadd_where_array)).
  rewrite read_write_same by assumption. rewrite H3. cbn [rbind]. rewrite write_write.
  rewrite (while_array fuel (existsb (fun x => Rgeb x phi_max)) _
             (map (fun x => if Rgeb x phi_max then x + - (2 * PI) else x)) a)
    by (now rewrite length_write || (intros; apply iadd_where_array)).
  rewrite read_write_same by assumption. rewrite H4. cbn [rbind]. rewrite write_write.
  reflexivity.
Qed.

Lemma while_skip (fuel : nat) (cond : ndval -> heap -> bool)
    (body : ndval -> heap -> result (ndval * heap)) (p : ndval) (h : heap) :
  cond p h = false -> Sphadj.while (S fuel) cond body p h = Ok (p, h).
Proof. intros Hc. simpl. now rewrite Hc. Qed.

(** On a scalar and bounds [2*pi] apart, the azimuth step finishes with the
    remainder of the specification; the masked loops are not entered. *)
Lemma azimuth_scalar (phi_min phi_max r : R) (h : heap) :
  phi_max - phi_min = 2 * PI ->
  exists n : nat, forall fuel, (n <= fuel)%nat ->
    Sphadj.azimuth fuel (Some (Scalar r)) phi_min phi_max h
    = Ok (Some (Scalar (modulo_fold phi_min phi_max r)), h).
Proof.
  intros Hw.
  destruct (iterate_while_enough (fun x => forallb (fun x => Rltb x phi_min) [x])
              (fun x => x + 2 * PI)
              (fun x => modulo_fold phi_min phi_max x = modulo_fold phi_min phi_max r)
              (steps_up phi_min)) with (s := r) as (r1 & Hs1 & Hc1 & Hrun1).
  { intros x Hx Hc. rewrite forallb_singleton in Hc. apply Rltb_spec in Hc. split.
    - now rewrite modulo_fold_up.
    - now apply steps_up_decreases. }
  { reflexivity. }
  destruct (iterate_while_enough (fun x => forallb (fun x => Rgeb x phi_max) [x])
              (fun x => x + - (2 * PI))
              (fun x => modulo_fold phi_min phi_max x = modulo_fold phi_min phi_max r
                        /\ phi_min <= x)
              (steps_down phi_max)) with (s := r1) as (r2 & [Hs2 Hlo2] & Hc2 & Hrun2).
  { intros x [Hx Hlo] Hc. rewrite forallb_singleton in Hc. apply Rgeb_spec in Hc.
    repeat split.
    - now rewrite modulo_fold_down.
    - lra.
    - now apply steps_down_decreases. }
  { split; [assumption |]. rewrite forallb_singleton in Hc1.
    destruct (Rlt_dec r1 phi_min) as [Hlt | Hge]; [| lra].
    rewrite (Rltb_true _ _ Hlt) in Hc1. discriminate. }
  assert (Hhi2 : r2 < phi_max).
  { rewrite forallb_singleton in Hc2.
    destruct (Rlt_dec r2 phi_max) as [Hlt | Hge]; [assumption |].
    rewrite Rgeb_true in Hc2 by lra. discriminate. }
  assert (Hr2 : r2 = modulo_fold phi_min phi_max r).
  { rewrite <- Hs2. symmetry. apply modulo_fold_id. lra. }
  exists (S (Nat.max (steps_up phi_min r) (steps_down phi_max r1))).
  intros fuel Hfuel. unfold Sphadj.azimuth. cbv zeta.
  rewrite (while_scalar fuel (forallb (fun x => Rltb x phi_min))).
  rewrite Hrun1 by lia. cbn [rbind].
  rewrite (while_scalar fuel (forallb (fun x => Rgeb x phi_max))).
  rewrite Hrun2 by lia. cbn [rbind].
  destruct fuel as [| fuel]; [lia |].
  rewrite while_skip
    by (simpl contents; rewrite existsb_singleton; apply Rltb_false; lra).
  cbn [rbind].
  rewrite while_skip
    by (simpl contents; rewrite existsb_singleton; apply Rgeb_false; lra).
  cbn [rbind]. now rewrite Hr2.
Qed.

Lemma azimuth_fold (phi_min phi_max : R) (p : ndval) (h : heap) :
  phi_max - phi_min = 2 * PI -> contents h p <> [] ->
  exists n : nat, forall fuel, (n <= fuel)%nat ->
    exists (p' : ndval) (h' : heap),
      Sphadj.azimuth fuel (Some p) phi_min phi_max h = Ok (Some p', h')
      /\ contents h' p' = map (modulo_fold phi_min phi_max) (contents h p)
      /\ match p with
         | Scalar _ => h' = h
         | Array a => p' = Array a
                      /\ h' = write h a (map (modulo_fold phi_min phi_max) (read h a))
         end.
Proof.
  intros Hw Hne. destruct p as [r | a].
  - destruct (azimuth_scalar phi_min phi_max r h Hw) as (n & Hrun).
    exists n. intros fuel Hfuel. do 2 eexists. split; [now apply Hrun |].
    split; reflexivity.
  - simpl in Hne. destruct (azimuth_array phi_min phi_max a h Hw Hne) as (n & Hrun).
    exists n. intros fuel Hfuel. do 2 eexists. split; [now apply Hrun |].
    split; [| split; reflexivity].
    simpl. apply read_write_same. now apply read_nonempty_allocated.
Qed.

Lemma sphadj_azimuth_only (fuel : nat) (p : ndval)
    (theta_min theta_max phi_min phi_max : R) (h : heap) :
  Sphadj.sphadj fuel None (Some p) theta_min theta_max phi_min phi_max h =
  ('(p', h') <- Sphadj.azimuth fuel (Some p) phi_min phi_max h ;; Ok (None, p', h')).
Proof. reflexivity. Qed.

Lemma default_width : PI - - PI = 2 * PI.
Proof. lra. Qed.

Lemma aziadj_fold (p : ndval) (h : heap) :
  contents h p <> [] ->
  exists n : nat, forall fuel, (n <= fuel)%nat ->
    exists (p' : ndval) (h' : heap),
      aziadj fuel p h = Ok (Some p', h')
      /\ contents h' p' = map (modulo_fold (- PI) PI) (contents h p).
Proof.
  intros Hne.
  destruct (azimuth_fold (- PI) PI p h default_width Hne) as (n & Hrun).
  exists n. intros fuel Hfuel. destruct (Hrun fuel Hfuel) as (p' & h' & Hr & Hc & _).
  exists p', h'. split; [| assumption].
  unfold aziadj, sphadj. rewrite sphadj_azimuth_only, Hr. reflexivity.
Qed.

(** C5, as the code has it: for bounds exactly [2*pi] apart (the defaults
    among them) and a scalar or nonempty array [phi], the azimuth of [sphadj]
    finishes and holds, element-wise,
    [((phi - phi_min) mod (phi_max - phi_min)) + phi_min] (the step of lines
    120-128 on its own, and [sphadj] called with an azimuth only); consequently
    [aziadj(phi + 2*pi*k)] and [aziadj(phi)] hold the same values, for every
    integer [k]. *)
Theorem sphadj_azimuth_is_modulo_of_full_turn (p : ndval) (h : heap) :
  contents h p <> [] ->
  (forall phi_min phi_max : R,
     phi_max - phi_min = 2 * PI ->
     exists n : nat, forall fuel, (n <= fuel)%nat ->
       exists (p' : ndval) (h' : heap),
         Sphadj.azimuth fuel (Some p) phi_min phi_max h = Ok (Some p', h')
         /\ contents h' p' = map (modulo_fold phi_min phi_max) (contents h p))
  /\ (forall theta_min theta_max phi_min phi_max : R,
     phi_max - phi_min = 2 * PI ->
     exists n : nat, forall fuel, (n <= fuel)%nat ->
       exists (p' : ndval) (h' : heap),
         Sphadj.sphadj fuel None (Some p) theta_min theta_max phi_min phi_max h
         = Ok (None, Some p', h')
         /\ contents h' p' = map (modulo_fold phi_min phi_max) (contents h p))
  /\ (forall (k : Z) (q : ndval) (g : heap),
        contents g q = map (fun x => x + 2 * PI * IZR k) (contents h p) ->
        exists n : nat, forall fuel, (n <= fuel)%nat ->
          exists (p' q' : ndval) (h' g' : heap),
            aziadj fuel p h = Ok (Some p', h')
            /\ aziadj fuel q g = Ok (Some q', g')
            /\ contents g' q' = contents h' p').
Proof.
  intros Hne. split; [| split].
  - intros phi_min phi_max Hw.
    destruct (azimuth_fold phi_min phi_max p h Hw Hne) as (n & Hrun).
    exists n. intros fuel Hfuel. destruct (Hrun fuel Hfuel) as (p' & h' & Hr & Hc & _).
    exists p', h'. split; assumption.
  - intros theta_min theta_max phi_min phi_max Hw.
    destruct (azimuth_fold phi_min phi_max p h Hw Hne) as (n & Hrun).
    exists n. intros fuel Hfuel. destruct (Hrun fuel Hfuel) as (p' & h' & Hr & Hc & _).
    exists p', h'. split; [| assumption].
    rewrite sphadj_azimuth_only, Hr. reflexivity.
  - intros k q g Hq.
    assert (Hneq : contents g q <> []).
    { rewrite Hq. destruct (contents h p); simpl; congruence. }
    destruct (aziadj_fold p h Hne) as (n1 & Hrun1).
    destruct (aziadj_fold q g Hneq) as (n2 & Hrun2).
    exists (Nat.max n1 n2). intros fuel Hfuel.
    destruct (Hrun1 fuel ltac:(lia)) as (p' & h' & Hp & Hcp).
    destruct (Hrun2 fuel ltac:(lia)) as (q' & g' & Hq' & Hcq).
    exists p', q', h', g'. split; [assumption |]. split; [assumption |].
    rewrite Hcq, Hcp, Hq, map_map. apply map_ext.
    intros x. apply modulo_fold_shift. apply default_width.
Qed.

Lemma sphadj_azimuth_is_modulo_of_full_turn_witness :
  exists n : nat, forall fuel, (n <= fuel)%nat ->
    exists (p' : ndval) (h' : heap),
      Sphadj.sphadj fuel None (Some (Array 0%nat)) (- PI / 2) (PI / 2) (- PI) PI [[4]]
      = Ok (None, Some p', h')
      /\ contents h' p' = [modulo_fold (- PI) PI 4].
Proof.
  assert (Hne : contents [[4]] (Array 0%nat) <> []) by (simpl; discriminate).
  exact (proj1 (proj2 (sphadj_azimuth_is_modulo_of_full_turn (Array 0%nat) [[4]] Hne))
           (- PI / 2) (PI / 2) (- PI) PI default_width).
Defined.

Lemma while_empty_array (fuel : nat) (lo : R) :
  Sphadj.while fuel (fun p h => forallb (fun x => Rltb x lo) (contents h p))
    (fun p h => Ok (iadd p (2 * PI) h)) (Array 0%nat) [[]] = OutOfFuel.
Proof. induction fuel as [| fuel IH]; [reflexivity | exact IH]. Qed.

(** C5 as stated fails for bounds that are not [2*pi] apart, and for an empty
    array: with the bounds [0] and [1] the array [[2]] ends as
    [[2 - 2*pi]], outside the bounds and away from the remainder [0]; on an
    empty array the first loop never ends. *)
Lemma sphadj_azimuth_not_modulo_of_other_widths :
  (forall fuel : nat,
     Sphadj.sphadj (S (S fuel)) None (Some (Array 0%nat)) (- PI / 2) (PI / 2) 0 1 [[2]]
     = Ok (None, Some (Array 0%nat), [[2 + - (2 * PI) + 2 * PI + - (2 * PI)]]))
  /\ 2 + - (2 * PI) + 2 * PI + - (2 * PI) <> modulo_fold 0 1 2
  /\ ~ (0 <= 2 + - (2 * PI) + 2 * PI + - (2 * PI) < 1)
  /\ (forall fuel : nat,
        Sphadj.sphadj fuel None (Some (Array 0%nat)) (- PI / 2) (PI / 2) (- PI) PI [[]]
        = OutOfFuel).
Proof.
  pose proof PI_bounds as HPI. repeat split.
  - intros fuel. rewrite sphadj_azimuth_only.
    unfold Sphadj.azimuth, Sphadj.iadd_where, mask_iadd. simpl. Rdecide. reflexivity.
  - assert (E : modulo_fold 0 1 2 = 0).
    { unfold modulo_fold. rewrite (np_mod_unique (2 - 0) (1 - 0) 0 2); lra. }
    rewrite E. lra.
  - lra.
  - intros fuel. rewrite sphadj_azimuth_only. unfold Sphadj.azimuth. cbv zeta.
    rewrite while_empty_array. reflexivity.
Qed.

(** ** What a call leaves in the heap *)

Lemma untouched_refl (passed : loc -> Prop) (h : heap) : untouched passed h h.
Proof. split; [lia | reflexivity]. Qed.

Lemma untouched_trans (passed : loc -> Prop) (h1 h2 h3 : heap) :
  untouched passed h1 h2 -> untouched passed h2 h3 -> untouched passed h1 h3.
Proof.
  intros [Hl1 Hr1] [Hl2 Hr2]. split; [lia |].
  intros b Hb Hnp. rewrite Hr2 by (assumption || lia). now apply Hr1.
Qed.

Lemma untouched_weaken (passed passed' : loc -> Prop) (h h' : heap) :
  (forall b, passed b -> passed' b) -> untouched passed h h' -> untouched passed' h h'.
Proof.
  intros Himp [Hl Hr]. split; [assumption |].
  intros b Hb Hnp. apply Hr; [assumption |]. intros Hp. apply Hnp. now apply Himp.
Qed.

Lemma untouched_write (passed : loc -> Prop) (h : heap) (a : loc) (l : list R) :
  passed a -> untouched passed h (write h a l).
Proof.
  intros Hp. split; [rewrite length_write; lia |].
  intros b Hb Hnp. apply read_write_other. intros ->. contradiction.
Qed.

Lemma untouched_alloc (passed : loc -> Prop) (h : heap) (l : list R) :
  untouched passed h (h ++ [l]).
Proof.
  split; [rewrite length_app; simpl; lia |].
  intros b Hb _. now apply read_alloc_old.
Qed.

Lemma iadd_frame (p : ndval) (c : R) (h : heap) :
  same_object p (fst (iadd p c h))
  /\ untouched (fun b => p = Array b) h (snd (iadd p c h)).
Proof.
  destruct p as [r | a]; simpl.
  - split; [trivial | apply untouched_refl].
  - split; [reflexivity | now apply untouched_write].
Qed.

Lemma mask_iadd_frame (mask : list bool) (p : ndval) (c : R) (h h' : heap) :
  mask_iadd mask p c h = Ok h' -> untouched (fun b => p = Array b) h h'.
Proof.
  destruct p as [r | a]; simpl; [discriminate |].
  destruct (Nat.eqb _ _); [| discriminate].
  intros [= <-]. now apply untouched_write.
Qed.

Lemma mask_rsub_frame (c : R) (m : R -> bool) (t : ndval) (h h' : heap) :
  mask_rsub c m t h = Ok h' -> untouched (fun b => t = Array b) h h'.
Proof.
  destruct t as [r | a]; simpl; [discriminate |].
  intros [= <-]. now apply untouched_write.
Qed.

Lemma rsub_frame (passed : loc -> Prop) (c : R) (t : ndval) (h : heap) :
  untouched passed h (snd (rsub c t h)).
Proof.
  destruct t as [r | a]; simpl; [apply untouched_refl | apply untouched_alloc].
Qed.

Lemma same_object_refl (p : ndval) : same_object p p.
Proof. destruct p; simpl; trivial. Qed.

Lemma same_object_trans (p q r : ndval) :
  same_object p q -> same_object q r -> same_object p r.
Proof. destruct p, q, r; simpl; try tauto; congruence. Qed.

Lemma same_object_passed (p q : ndval) (b : loc) :
  same_object p q -> q = Array b -> p = Array b.
Proof. destruct p, q; simpl; try tauto; try discriminate. intros -> [= ->]. reflexivity. Qed.

(** A loop writes where its body writes. *)
Lemma while_frame (fuel : nat) (cond : ndval -> heap -> bool)
    (body : ndval -> heap -> result (ndval * heap)) :
  (forall p h p' h', body p h = Ok (p', h') ->
     same_object p p' /\ untouched (fun b => p = Array b) h h') ->
  forall p h p' h', Sphadj.while fuel cond body p h = Ok (p', h') ->
    same_object p p' /\ untouched (fun b => p = Array b) h h'.
Proof.
  intros Hbody. induction fuel as [| fuel IH]; intros p h p' h' Hrun; [discriminate |].
  simpl in Hrun. destruct (cond p h).
  - destruct (body p h) as [[p1 h1] | | |] eqn:Hb; try discriminate.
    cbn [rbind] in Hrun.
    destruct (Hbody _ _ _ _ Hb) as [Hs1 Hu1].
    destruct (IH _ _ _ _ Hrun) as [Hs2 Hu2].
    split; [eapply same_object_trans; eassumption |].
    eapply untouched_trans; [exact Hu1 |].
    eapply untouched_weaken; [| exact Hu2].
    intros b. now apply same_object_passed.
  - injection Hrun as <- <-. split; [apply same_object_refl | apply untouched_refl].
Qed.

Lemma iadd_body_frame (c : R) (p : ndval) (h : heap) (p' : ndval) (h' : heap) :
  Ok (iadd p c h) = Ok (p', h') ->
  same_object p p' /\ untouched (fun b => p = Array b) h h'.
Proof.
  intros [= E]. pose proof (iadd_frame p c h) as [Hs Hu].
  rewrite E in Hs, Hu. split; assumption.
Qed.

Lemma iadd_where_frame (m : R -> bool) (c : R) (p : ndval) (h : heap)
    (p' : ndval) (h' : heap) :
  Sphadj.iadd_where m c p h = Ok (p', h') ->
  same_object p p' /\ untouched (fun b => p = Array b) h h'.
Proof.
  unfold Sphadj.iadd_where.
  destruct (mask_iadd _ p c h) as [h1 | | |] eqn:E; try discriminate.
  cbn [rbind]. intros [= <- <-].
  split; [apply same_object_refl | now apply mask_iadd_frame in E].
Qed.

Lemma same_arg_refl (o : option ndval) : same_arg o o.
Proof. destruct o; simpl; [apply same_object_refl | trivial]. Qed.

Lemma same_arg_passed (o o' : option ndval) (b : loc) :
  same_arg o o' -> object_of o' b -> object_of o b.
Proof.
  unfold object_of. destruct o as [p |], o' as [p' |]; simpl; try tauto; try discriminate.
  intros Hs [= ->]. f_equal. now apply (same_object_passed p (Array b)).
Qed.

Lemma azimuth_frame (fuel : nat) (phi : option ndval) (phi_min phi_max : R)
    (h : heap) (phi' : option ndval) (h' : heap) :
  Sphadj.azimuth fuel phi phi_min phi_max h = Ok (phi', h') ->
  same_arg phi phi' /\ untouched (object_of phi) h h'.
Proof.
  unfold Sphadj.azimuth. destruct phi as [p |].
  - cbv zeta.
    destruct (Sphadj.while fuel _ _ p h) as [[p1 h1] | | |] eqn:E1; try discriminate.
    cbn [rbind].
    destruct (Sphadj.while fuel _ _ p1 h1) as [[p2 h2] | | |] eqn:E2; try discriminate.
    cbn [rbind].
    destruct (Sphadj.while fuel _ _ p2 h2) as [[p3 h3] | | |] eqn:E3; try discriminate.
    cbn [rbind].
    destruct (Sphadj.while fuel _ _ p3 h3) as [[p4 h4] | | |] eqn:E4; try discriminate.
    cbn [rbind]. intros [= <- <-].
    apply while_frame in E1; [| intros; now apply (iadd_body_frame (2 * PI))].
    apply while_frame in E2; [| intros; now apply (iadd_body_frame (- (2 * PI)))].
    apply while_frame in E3; [| intros; eapply iadd_where_frame; eassumption].
    apply while_frame in E4; [| intros; eapply iadd_where_frame; eassumption].
    destruct E1 as [S1 U1], E2 as [S2 U2], E3 as [S3 U3], E4 as [S4 U4].
    assert (S12 : same_object p p2) by (eapply same_object_trans; eassumption).
    assert (S13 : same_object p p3) by (eapply same_object_trans; eassumption).
    split; [simpl; eapply same_object_trans; eassumption |].
    assert (W : forall q, same_object p q -> forall b, q = Array b -> object_of (Some p) b).
    { intros q Hq b Hb. unfold object_of. f_equal. eapply same_object_passed; eassumption. }
    eapply untouched_trans;
      [eapply untouched_weaken; [| exact U1]; apply (W p), same_object_refl |].
    eapply untouched_trans;
      [eapply untouched_weaken; [| exact U2]; now apply (W p1) |].
    eapply untouched_trans;
      [eapply untouched_weaken; [| exact U3]; now apply (W p2) |].
    eapply untouched_weaken; [| exact U4]. now apply (W p3).
  - intros [= <- <-]. split; [exact I | apply untouched_refl].
Qed.

Lemma shift_all_frame (phi : option ndval) (h : heap) :
  same_arg phi (fst (Sphadj.shift_all phi h))
  /\ untouched (object_of phi) h (snd (Sphadj.shift_all phi h)).
Proof.
  unfold Sphadj.shift_all. destruct phi as [p |].
  - destruct (np_all (Some p) h).
    + pose proof (iadd_frame p PI h) as [Hs Hu].
      destruct (iadd p PI h) as [p' h']. simpl in *. split; [assumption |].
      eapply untouched_weaken; [| exact Hu]. intros b ->. reflexivity.
    + split; [apply same_arg_refl | apply untouched_refl].
  - split; [exact I | apply untouched_refl].
Qed.

Lemma shift_where_frame (m : R -> bool) (t : ndval) (phi : option ndval)
    (h h' : heap) :
  Sphadj.shift_where m t phi h = Ok h' -> untouched (object_of phi) h h'.
Proof.
  unfold Sphadj.shift_where. destruct phi as [p |].
  - destruct (np_all (Some p) h).
    + intros E. apply mask_iadd_frame in E.
      eapply untouched_weaken; [| exact E]. intros b ->. reflexivity.
    + intros [= <-]. apply untouched_refl.
  - intros [= <-]. apply untouched_refl.
Qed.

Lemma elevation_frame (theta phi : option ndval) (theta_min theta_max : R)
    (h : heap) (theta' phi' : option ndval) (h' : heap) :
  Sphadj.elevation theta phi theta_min theta_max h = Ok (theta', phi', h') ->
  same_arg phi phi'
  /\ untouched (fun b => object_of theta b \/ object_of phi b) h h'.
Proof.
  unfold Sphadj.elevation. destruct theta as [t |];
    [| intros [= <- <- <-]; split; [apply same_arg_refl | apply untouched_refl]].
  cbv zeta.
  assert (Hall : forall c,
            (let (t', h1) := rsub c t h in
             let (phi0, h2) := Sphadj.shift_all phi h1 in Ok (Some t', phi0, h2))
            = Ok (theta', phi', h') ->
            same_arg phi phi'
            /\ untouched (fun b => object_of (Some t) b \/ object_of phi b) h h').
  { intros c. pose proof (rsub_frame (object_of phi) c t h) as Hu1.
    destruct (rsub c t h) as [t1 h1]. simpl in Hu1.
    pose proof (shift_all_frame phi h1) as [Hs Hu2].
    destruct (Sphadj.shift_all phi h1) as [phi0 h2]. simpl in *.
    intros [= <- <- <-]. split; [assumption |].
    eapply untouched_weaken; [| eapply untouched_trans; eassumption]. tauto. }
  assert (Hsome : forall c m,
            (h1 <- mask_rsub c m t h ;;
             h2 <- Sphadj.shift_where m t phi h1 ;; Ok (Some t, phi, h2))
            = Ok (theta', phi', h') ->
            same_arg phi phi'
            /\ untouched (fun b => object_of (Some t) b \/ object_of phi b) h h').
  { intros c m. destruct (mask_rsub c m t h) as [h1 | | |] eqn:E1; try discriminate.
    cbn [rbind].
    destruct (Sphadj.shift_where m t phi h1) as [h2 | | |] eqn:E2; try discriminate.
    cbn [rbind]. intros [= <- <- <-]. split; [apply same_arg_refl |].
    apply mask_rsub_frame in E1. apply shift_where_frame in E2.
    eapply untouched_trans.
    - eapply untouched_weaken; [| exact E1]. intros b ->. left. reflexivity.
    - eapply untouched_weaken; [| exact E2]. tauto. }
  destruct (forallb _ (contents h t)); [apply Hall |].
  destruct (forallb _ (contents h t)); [apply Hall |].
  destruct (existsb _ (contents h t)); [apply Hsome |].
  destruct (existsb _ (contents h t)); [apply Hsome |].
  intros [= <- <- <-]. split; [apply same_arg_refl | apply untouched_refl].
Qed.

(** [sphadj] writes into the arrays passed to it and into no other, and the
    azimuth it returns is the object it was given. *)
Lemma sphadj_frame (fuel : nat) (theta phi : option ndval)
    (theta_min theta_max phi_min phi_max : R) (h : heap)
    (theta' phi' : option ndval) (h' : heap) :
  Sphadj.sphadj fuel theta phi theta_min theta_max phi_min phi_max h
  = Ok (theta', phi', h') ->
  same_arg phi phi'
  /\ untouched (fun b => object_of theta b \/ object_of phi b) h h'.
Proof.
  unfold Sphadj.sphadj.
  destruct (Sphadj.elevation theta phi theta_min theta_max h)
    as [[[t1 p1] h1] | | |] eqn:E1; try discriminate.
  cbn [rbind].
  destruct (Sphadj.azimuth fuel p1 phi_min phi_max h1) as [[p2 h2] | | |] eqn:E2;
    try discriminate.
  cbn [rbind]. intros [= <- <- <-].
  apply elevation_frame in E1. apply azimuth_frame in E2.
  destruct E1 as [S1 U1], E2 as [S2 U2]. split.
  - destruct phi as [p |], p1 as [q |], p2 as [r |]; simpl in *; try tauto.
    eapply same_object_trans; eassumption.
  - eapply untouched_trans; [exact U1 |].
    eapply untouched_weaken; [| exact U2].
    intros b Hb. right. eapply same_arg_passed; eassumption.
Qed.

Lemma rbind_ok {A B : Type} (r : result A) (k : A -> result B) (b : B) :
  rbind r k = Ok b -> exists a, r = Ok a /\ k a = Ok b.
Proof. destruct r as [a | | |]; simpl; try discriminate. eauto. Qed.

(** [vec2sph] leaves every array of the caller as it was, its argument
    included. *)
Lemma vec2sph_frame (fuel : nat) (vec : vecarg) (h : heap) (r : packed) (h' : heap) :
  vec2sph fuel vec h = Ok (r, h') ->
  forall b : loc, (b < length h)%nat -> read h' b = read h b.
Proof.
  destruct vec as [a | rows].
  - unfold vec2sph. intros Hrun b Hb.
    do 5 (apply rbind_ok in Hrun; destruct Hrun as (? & _ & Hrun)).
    apply rbind_ok in Hrun. destruct Hrun as ([[t' p'] h1] & Hs & Hrun).
    do 3 (apply rbind_ok in Hrun; destruct Hrun as (? & _ & Hrun)).
    injection Hrun as _ <-.
    apply sphadj_frame in Hs. destruct Hs as [_ [_ Hu]].
    apply Hu; [assumption |]. unfold object_of. intros [E | E]; discriminate.
  - rewrite vec2sph_batch_unfold. cbv zeta. unfold alloc. intros Hrun b Hb.
    do 3 (apply rbind_ok in Hrun; destruct Hrun as (? & _ & Hrun)).
    apply rbind_ok in Hrun. destruct Hrun as ([[t' p'] h1] & Hs & Hrun).
    do 3 (apply rbind_ok in Hrun; destruct Hrun as (? & _ & Hrun)).
    injection Hrun as _ <-.
    apply sphadj_frame in Hs. destruct Hs as [_ [_ Hu]].
    rewrite Hu.
    + rewrite !read_alloc_old; [reflexivity | | |];
        rewrite ?length_app; simpl; lia.
    + rewrite !length_app. simpl. lia.
    + unfold object_of. rewrite !length_app. simpl.
      intros [E | E]; injection E as E; lia.
Qed.

Lemma forallb_none (m : R -> bool) (l : list R) :
  l <> [] -> Forall (fun x => m x = false) l -> forallb m l = false.
Proof.
  destruct l as [| x l]; [congruence |]. intros _ H.
  inversion H as [| ? ? Hx _]; subst. simpl. now rewrite Hx.
Qed.

Lemma existsb_none (m : R -> bool) (l : list R) :
  Forall (fun x => m x = false) l -> existsb m l = false.
Proof.
  induction 1 as [| x l Hx _ IH]; simpl; [reflexivity |]. now rewrite Hx, IH.
Qed.

Lemma within_not_above (lo hi : R) (l : list R) :
  Forall (fun x => lo <= x < hi) l -> Forall (fun x => Rgeb x hi = false) l.
Proof. apply Forall_impl. intros x Hx. apply Rgeb_false. lra. Qed.

Lemma within_not_below (lo hi : R) (l : list R) :
  Forall (fun x => lo <= x < hi) l -> Forall (fun x => Rltb x lo = false) l.
Proof. apply Forall_impl. intros x Hx. apply Rltb_false. lra. Qed.

(** Arguments whose elements all lie within the bounds come back as they
    are, and the heap with them. *)
Lemma sphadj_within (fuel : nat) (theta phi : option ndval)
    (theta_min theta_max phi_min phi_max : R) (h : heap) :
  within theta_min theta_max h theta -> within phi_min phi_max h phi ->
  Sphadj.sphadj (S fuel) theta phi theta_min theta_max phi_min phi_max h
  = Ok (theta, phi, h).
Proof.
  intros Ht Hp. unfold Sphadj.sphadj.
  assert (E : Sphadj.elevation theta phi theta_min theta_max h = Ok (theta, phi, h)).
  { unfold Sphadj.elevation. destruct theta as [t |]; [| reflexivity].
    destruct Ht as [Hne Hin]. cbv zeta.
    rewrite (forallb_none _ _ Hne (within_not_above _ _ _ Hin)).
    rewrite (forallb_none _ _ Hne (within_not_below _ _ _ Hin)).
    rewrite (existsb_none _ _ (within_not_above _ _ _ Hin)).
    rewrite (existsb_none _ _ (within_not_below _ _ _ Hin)). reflexivity. }
  rewrite E. cbn [rbind]. unfold Sphadj.azimuth.
  destruct phi as [p |]; [| reflexivity].
  destruct Hp as [Hne Hin]. cbv zeta.
  rewrite while_skip by (apply forallb_none; [assumption | eapply within_not_below; eassumption]).
  cbn [rbind].
  rewrite while_skip by (apply forallb_none; [assumption | eapply within_not_above; eassumption]).
  cbn [rbind].
  rewrite while_skip by (apply existsb_none; eapply within_not_below; eassumption).
  cbn [rbind].
  rewrite while_skip by (apply existsb_none; eapply within_not_above; eassumption).
  reflexivity.
Qed.

(** X29: [vec2sph] leaves every array of the caller as it was; [sphadj] (and
    with it [eleadj] and [aziadj]) writes into no array but the ones passed to
    it, returns as azimuth the object it was given, and leaves nonempty
    arguments as they were when every element already lies within the
    bounds; a nonempty azimuth array is folded in place, for bounds [2*pi]
    apart. *)
Theorem sphadj_adjusts_its_arguments_in_place :
  (forall (fuel : nat) (vec : vecarg) (h : heap) (r : packed) (h' : heap),
     vec2sph fuel vec h = Ok (r, h') ->
     forall b : loc, (b < length h)%nat -> read h' b = read h b)
  /\ (forall (fuel : nat) (theta phi : option ndval)
        (theta_min theta_max phi_min phi_max : R) (h : heap)
        (theta' phi' : option ndval) (h' : heap),
        Sphadj.sphadj fuel theta phi theta_min theta_max phi_min phi_max h
        = Ok (theta', phi', h') ->
        same_arg phi phi'
        /\ forall b : loc, (b < length h)%nat ->
             ~ object_of theta b -> ~ object_of phi b -> read h' b = read h b)
  /\ (forall (fuel : nat) (theta phi : option ndval)
        (theta_min theta_max phi_min phi_max : R) (h : heap),
        within theta_min theta_max h theta -> within phi_min phi_max h phi ->
        Sphadj.sphadj (S fuel) theta phi theta_min theta_max phi_min phi_max h
        = Ok (theta, phi, h))
  /\ (forall (theta_min theta_max phi_min phi_max : R) (a : loc) (h : heap),
        phi_max - phi_min = 2 * PI -> read h a <> [] ->
        exists n : nat, forall fuel, (n <= fuel)%nat ->
          Sphadj.sphadj fuel None (Some (Array a)) theta_min theta_max phi_min phi_max h
          = Ok (None, Some (Array a),
                write h a (map (modulo_fold phi_min phi_max) (read h a)))).
Proof.
  split; [exact vec2sph_frame |]. split; [| split].
  - intros fuel theta phi theta_min theta_max phi_min phi_max h theta' phi' h' Hrun.
    apply sphadj_frame in Hrun. destruct Hrun as [Hs [_ Hu]].
    split; [assumption |]. intros b Hb Ht Hp. apply Hu; [assumption | tauto].
  - exact sphadj_within.
  - intros theta_min theta_max phi_min phi_max a h Hw Hne.
    destruct (azimuth_array phi_min phi_max a h Hw Hne) as (n & Hrun).
    exists n. intros fuel Hfuel.
    rewrite sphadj_azimuth_only, (Hrun fuel Hfuel). reflexivity.
Qed.

Lemma sphadj_adjusts_its_arguments_in_place_witness :
  sphadj 1 (Some (Array 0%nat)) (Some (Array 1%nat)) [[1]; [2]]
  = Ok (Some (Array 0%nat), Some (Array 1%nat), [[1]; [2]]).
Proof.
  pose proof PI_bounds as HPI.
  apply (proj1 (proj2 (proj2 sphadj_adjusts_its_arguments_in_place))).
  - split; [discriminate |]. repeat constructor; simpl; lra.
  - split; [discriminate |]. repeat constructor; simpl; lra.
Defined.

(** C9: [sphadj] does write into the arrays of its caller.  After [aziadj] on
    the array [[4]] the caller's array holds [4 - 2*pi] (the loops of lines
    121-128 use [+=] and [-=]); after [eleadj] on [[3, 0]], where some
    elevations are out of bounds, it holds [[pi - 3, 0]] (line 112 assigns
    through a mask).  Yet after [eleadj] on [[3, 2]], where all are out of
    bounds, the caller's array is as it was and the folded elevations come
    back in a new array: line 104 rebinds [theta]. *)
Theorem sphadj_overwrites_caller_arrays :
  aziadj 2 (Array 0%nat) [[4]] = Ok (Some (Array 0%nat), [[4 + - (2 * PI)]])
  /\ read [[4 + - (2 * PI)]] 0%nat <> read [[4]] 0%nat
  /\ eleadj 1 (Array 0%nat) [[3; 0]] = Ok (Some (Array 0%nat), [[PI - 3; 0]])
  /\ read [[PI - 3; 0]] 0%nat <> read [[3; 0]] 0%nat
  /\ eleadj 1 (Array 0%nat) [[3; 2]]
     = Ok (Some (Array 1%nat), [[3; 2]; [PI - 3; PI - 2]]).
Proof.
  pose proof PI_bounds as HPI. repeat split.
  - unfold aziadj, sphadj. rewrite sphadj_azimuth_only.
    unfold Sphadj.azimuth. simpl. Rdecide. reflexivity.
  - unfold read. simpl. intros [= E]. lra.
  - unfold eleadj, sphadj, Sphadj.sphadj, Sphadj.elevation. simpl. Rdecide. reflexivity.
  - unfold read. simpl. intros [= E]. lra.
  - unfold eleadj, sphadj, Sphadj.sphadj, Sphadj.elevation. simpl. Rdecide. reflexivity.
Qed.

(** ** The round trip on a single vector *)

Lemma sqrt_sum_sqr_factor (a b : R) :
  b <> 0 -> sqrt (a * a + b * b) = Rabs b * sqrt (1 + (a / b)²).
Proof.
  intros Hb.
  replace (a * a + b * b) with (b² * (1 + (a / b)²)) by (unfold Rsqr; field; assumption).
  rewrite sqrt_mult.
  - now rewrite sqrt_Rsqr_abs.
  - apply Rle_0_sqr.
  - pose proof (Rle_0_sqr (a / b)). lra.
Qed.

Lemma sqrt_one_plus_sqr_pos (t : R) : 0 < sqrt (1 + t²).
Proof. apply sqrt_lt_R0. pose proof (Rle_0_sqr t). lra. Qed.

(** The point [(b, a)] is [sqrt(a^2 + b^2)] away from the origin in the
    direction [arctan2 a b]. *)
Lemma arctan2_polar (a b : R) :
  sin (arctan2 a b) * sqrt (a * a + b * b) = a
  /\ cos (arctan2 a b) * sqrt (a * a + b * b) = b.
Proof.
  unfold arctan2.
  destruct (Rlt_dec 0 b) as [Hb | Hb].
  - rewrite sqrt_sum_sqr_factor by lra. rewrite Rabs_pos_eq by lra.
    rewrite sin_atan, cos_atan. pose proof (sqrt_one_plus_sqr_pos (a / b)).
    split; field; lra.
  - destruct (Rlt_dec b 0) as [Hb' | Hb'].
    + rewrite sqrt_sum_sqr_factor by lra. rewrite Rabs_left by lra.
      pose proof (sqrt_one_plus_sqr_pos (a / b)).
      destruct (Rle_dec 0 a).
      * rewrite neg_sin, neg_cos, sin_atan, cos_atan. split; field; lra.
      * unfold Rminus. rewrite <- (Ropp_involutive (atan (a / b) + - PI)).
        rewrite sin_neg, cos_neg.
        replace (- (atan (a / b) + - PI)) with (PI - atan (a / b)) by ring.
        rewrite sin_PI_x, Rtrigo_facts.cos_pi_minus, sin_atan, cos_atan.
        split; field; lra.
    + assert (b = 0) by lra. subst b.
      replace (a * a + 0 * 0) with (a²) by (unfold Rsqr; ring).
      rewrite sqrt_Rsqr_abs.
      destruct (Rlt_dec 0 a).
      * rewrite sin_PI2, cos_PI2, Rabs_pos_eq by lra. split; ring.
      * destruct (Rlt_dec a 0).
        -- rewrite sin_neg, cos_neg, sin_PI2, cos_PI2, Rabs_left by lra. split; ring.
        -- assert (a = 0) by lra. subst a.
           rewrite sin_0, cos_0, Rabs_R0. split; ring.
Qed.

Lemma sin_cos_folded (phi : R) :
  sin (if Req_dec_T phi PI then - PI else phi) = sin phi
  /\ cos (if Req_dec_T phi PI then - PI else phi) = cos phi.
Proof.
  destruct (Req_dec_T phi PI) as [-> | _]; [| split; reflexivity].
  rewrite sin_neg, cos_neg, sin_PI. split; ring.
Qed.

(** On a single vector that is not the zero vector, [sph2vec] gives back what
    [vec2sph] was given. *)
Lemma sph2vec_vec2sph_single (fuel : nat) (a : loc) (h : heap) (x y z : R) :
  read h a = [x; y; z] -> norm [x; y; z] <> 0 ->
  sph2vec_vec2sph (S (S fuel)) (Vec1 a) h = Ok (Flat [x; y; z]).
Proof.
  intros Hread Hnorm. unfold sph2vec_vec2sph.
  rewrite (vec2sph_single fuel a h x y z Hread). cbn [rbind].
  unfold sph2vec_packed, unpack, item. simpl. unfold sph2vec.
  pose proof (radius_pos [x; y; z]) as Hr.
  pose proof (normalised_bound x y z) as Hz.
  assert (Hsq : radius [x; y; z] * radius [x; y; z] = x * x + y * y + z * z).
  { unfold radius. destruct (Req_dec_T (norm [x; y; z]) 0); [contradiction |].
    apply norm3_sqr. }
  set (r := radius [x; y; z]) in *.
  destruct (sin_cos_folded (arctan2 (x / r) (y / r))) as [-> ->].
  rewrite cos_shift, sin_shift, cos_acos, sin_acos by assumption.
  replace (1 - (z / r)²) with (x / r * (x / r) + y / r * (y / r)).
  2:{ unfold Rsqr. apply Rmult_eq_reg_r with (r * r); [| nra]. field_simplify; lra. }
  destruct (arctan2_polar (x / r) (y / r)) as [-> ->].
  repeat f_equal; field; lra.
Qed.

(** C1: the round trip comes back on a single vector that is not the zero
    vector, but not on a batch.  The 2-by-3 batch [[[1, 0, 0], [0, 1, 0]]]
    raises inside [vec2sph]; in the 3-by-3 batch
    [[[0, 0, 2], [1, 0, 0], [0, 1, 0]]] the rows are divided by the radii of
    the columns, the first row stays [(0, 0, 2)] and its [arccos] is not a
    number. *)
Theorem sph2vec_vec2sph_batch_fails (fuel : nat) (h : heap) :
  sph2vec_vec2sph fuel (Vec2 [[1; 0; 0]; [0; 1; 0]]) h = Raise BroadcastMismatch
  /\ sph2vec_vec2sph fuel (Vec2 [[0; 0; 2]; [1; 0; 0]; [0; 1; 0]]) h = NonFinite
  /\ (forall (a : loc) (x y z : R),
        read h a = [x; y; z] -> norm [x; y; z] <> 0 ->
        sph2vec_vec2sph (S (S fuel)) (Vec1 a) h = Ok (Flat [x; y; z])).
Proof.
  split; [| split].
  - unfold sph2vec_vec2sph. now rewrite vec2sph_two_rows.
  - unfold sph2vec_vec2sph. now rewrite vec2sph_three_rows.
  - intros a x y z Hread Hnorm. now apply sph2vec_vec2sph_single.
Qed.

Lemma sph2vec_vec2sph_batch_fails_witness :
  sph2vec_vec2sph 2 (Vec1 0%nat) [[3; 4; 0]] = Ok (Flat [3; 4; 0]).
Proof.
  apply (proj2 (proj2 (sph2vec_vec2sph_batch_fails 0 [[3; 4; 0]]))).
  - reflexivity.
  - intros H. pose proof (norm3_sqr 3 4 0) as Hs. rewrite H in Hs. lra.
Defined.

(** ** The masked branch of the elevation, in general *)

(** When some but not all elevations are at or above [theta_max] (and not all
    are below [theta_min]), those are folded in place; the azimuths that are
    shifted are the ones whose elevation is at or above [theta_max] after the
    fold. *)
Lemma elevation_some_above (a b : loc) (theta_min theta_max : R) (h : heap) :
  a <> b -> (a < length h)%nat ->
  length (read h a) = length (read h b) ->
  forallb (fun x => Rgeb x theta_max) (read h a) = false ->
  forallb (fun x => Rltb x theta_min) (read h a) = false ->
  existsb (fun x => Rgeb x theta_max) (read h a) = true ->
  np_all (Some (Array b)) h = true ->
  let folded := map (fun x => if Rgeb x theta_max then PI - x else x) (read h a) in
  Sphadj.elevation (Some (Array a)) (Some (Array b)) theta_min theta_max h
  = Ok (Some (Array a), Some (Array b),
        write (write h a folded) b
          (add_where (map (fun x => Rgeb x theta_max) folded) PI (read h b))).
Proof.
  intros Hab Ha Hlen Hall Hall' Hex Hphi folded.
  unfold Sphadj.elevation. simpl contents. cbv zeta.
  rewrite Hall, Hall', Hex. unfold mask_rsub. cbn [rbind].
  fold folded. unfold Sphadj.shift_where.
  assert (Hb : read (write h a folded) b = read h b) by now apply read_write_other.
  assert (Hnp : np_all (Some (Array b)) (write h a folded) = true).
  { unfold np_all in *. simpl contents in *. now rewrite Hb. }
  rewrite Hnp. unfold mask_iadd. simpl contents.
  rewrite read_write_same by assumption. rewrite Hb.
  assert (Hl : length (map (fun x => Rgeb x theta_max) folded) = length (read h b)).
  { unfold folded. now rewrite !length_map. }
  rewrite Hl, Nat.eqb_refl. reflexivity.
Qed.

(** * Further properties of the module *)

(** ** [rotation_matrix] *)

Lemma cons_eq {A : Type} (x y : A) (l l' : list A) :
  x = y -> l = l' -> x :: l = y :: l'.
Proof. intros -> ->. reflexivity. Qed.

Lemma sin_cos_sqr (x : R) : sin x * sin x + cos x * cos x = 1.
Proof. pose proof (sin2_cos2 x) as H. unfold Rsqr in H. exact H. Qed.

(** X1: a rotation matrix times its transpose is the identity, its transpose
    is the rotation by the opposite angle, and its determinant is 1. *)
Theorem rotation_matrix_orthogonal (theta : R) :
  mat_mul (rotation_matrix theta) (transpose (rotation_matrix theta))
  = Ok [[1; 0]; [0; 1]]
  /\ transpose (rotation_matrix theta) = rotation_matrix (- theta)
  /\ det2 (rotation_matrix theta) = 1.
Proof.
  pose proof (sin_cos_sqr theta) as H. split; [| split].
  - unfold mat_mul, rotation_matrix, transpose, column. simpl.
    apply f_equal. apply cons_eq; [apply cons_eq; [| apply cons_eq] |
                                   apply cons_eq; [apply cons_eq; [| apply cons_eq] |]];
      try reflexivity; nra.
  - unfold rotation_matrix, transpose, column. simpl.
    rewrite sin_neg, cos_neg, Ropp_involutive. reflexivity.
  - unfold det2, rotation_matrix. simpl. nra.
Qed.

(** X2: rotations compose by adding their angles. *)
Theorem rotation_matrix_compose (a b : R) :
  mat_mul (rotation_matrix a) (rotation_matrix b) = Ok (rotation_matrix (a + b)).
Proof.
  unfold mat_mul, rotation_matrix, transpose, column. simpl.
  rewrite sin_plus, cos_plus.
  apply f_equal. apply cons_eq; [apply cons_eq; [| apply cons_eq] |
                                 apply cons_eq; [apply cons_eq; [| apply cons_eq] |]];
    try reflexivity; ring.
Qed.

(** ** [azirot] *)

Lemma azirot_3 (x y z phi : R) :
  azirot [x; y; z] phi
  = Ok [cos phi * x - sin phi * y; sin phi * x + cos phi * y; z].
Proof.
  unfold azirot, mat_vec. simpl. apply f_equal.
  apply cons_eq; [| apply cons_eq; [| apply cons_eq]]; try reflexivity; ring.
Qed.

Lemma azirot_wrong_length (vec : list R) (phi : R) :
  length vec <> 3%nat -> azirot vec phi = Raise BroadcastMismatch.
Proof.
  intros H. unfold azirot, mat_vec. cbn [forallb length].
  destruct (Nat.eqb_spec 3 (length vec)) as [E | _]; [congruence | reflexivity].
Qed.

Lemma norm3_eq (x y z x' y' z' : R) :
  x * x + y * y + z * z = x' * x' + y' * y' + z' * z' ->
  norm [x; y; z] = norm [x'; y'; z'].
Proof.
  intros H. unfold norm, sumsq. simpl. f_equal. lra.
Qed.

(** X3: [azirot] turns the horizontal components by [rotation_matrix(phi)]
    and keeps the vertical component and the length of the vector; on an
    array that does not have three components it raises. *)
Theorem azirot_keeps_height_and_length (vec : list R) (phi : R) :
  match vec with
  | [x; y; z] =>
      exists x' y' : R,
        azirot vec phi = Ok [x'; y'; z]
        /\ mat_vec (rotation_matrix phi) [x; y] = Ok [x'; y']
        /\ norm [x'; y'; z] = norm vec
  | _ => azirot vec phi = Raise BroadcastMismatch
  end.
Proof.
  destruct vec as [| x [| y [| z [| w vec]]]];
    try (apply azirot_wrong_length; simpl; lia).
  exists (cos phi * x - sin phi * y), (sin phi * x + cos phi * y).
  split; [apply azirot_3 |]. split.
  - unfold mat_vec, rotation_matrix. simpl. apply f_equal.
    apply cons_eq; [| apply cons_eq]; try reflexivity; ring.
  - apply norm3_eq. pose proof (sin_cos_sqr phi). nra.
Qed.

(** X4: turning by [a] and then by [b] is turning by [a + b], also where
    [azirot] raises; turning by 0 changes nothing. *)
Theorem azirot_compose (vec : list R) (a b : R) :
  (v <- azirot vec a ;; azirot v b) = azirot vec (a + b)
  /\ (length vec = 3%nat -> azirot vec 0 = Ok vec).
Proof.
  destruct vec as [| x [| y [| z [| w vec]]]];
    try (split; [rewrite !azirot_wrong_length by (simpl; lia); reflexivity
                | simpl; lia]).
  split.
  - rewrite !azirot_3. cbn [rbind]. rewrite azirot_3, sin_plus, cos_plus.
    apply f_equal.
    apply cons_eq; [| apply cons_eq; [| apply cons_eq]]; try reflexivity; ring.
  - intros _. rewrite azirot_3, sin_0, cos_0. apply f_equal.
    apply cons_eq; [| apply cons_eq; [| apply cons_eq]]; try reflexivity; ring.
Qed.

Lemma azirot_compose_witness : azirot [1; 2; 3] 0 = Ok [1; 2; 3].
Proof. apply (proj2 (azirot_compose [1; 2; 3] 0 0)). reflexivity. Defined.

Lemma azirot_sph2vec (theta phi rho alpha : R) :
  azirot (sph2vec theta phi rho) alpha = Ok (sph2vec theta (phi - alpha) rho).
Proof.
  unfold sph2vec. rewrite azirot_3, sin_minus, cos_minus. apply f_equal.
  apply cons_eq; [| apply cons_eq; [| apply cons_eq]]; try reflexivity; ring.
Qed.

(** X5: in the convention of [sph2vec], where the azimuth is counted from the
    y axis towards the x axis, [azirot] by [alpha] lowers the azimuth by
    [alpha] and keeps elevation and radius; turning back by [- alpha] gives
    the vector again. *)
Theorem azirot_lowers_azimuth (theta phi rho alpha : R) :
  azirot (sph2vec theta phi rho) alpha = Ok (sph2vec theta (phi - alpha) rho)
  /\ (v <- azirot (sph2vec theta phi rho) alpha ;; azirot v (- alpha))
     = Ok (sph2vec theta phi rho).
Proof.
  split; [apply azirot_sph2vec |].
  rewrite azirot_sph2vec. cbn [rbind]. rewrite azirot_sph2vec.
  replace (phi - alpha - - alpha) with phi by ring. reflexivity.
Qed.

(** ** [sph2vec] *)

Lemma norm_sph2vec (theta phi rho : R) :
  norm (sph2vec theta phi rho) = Rabs rho.
Proof.
  unfold sph2vec, norm, sumsq. simpl.
  rewrite <- sqrt_Rsqr_abs. f_equal. unfold Rsqr.
  pose proof (sin_cos_sqr theta) as Ht. pose proof (sin_cos_sqr phi) as Hp.
  replace (rho * (sin phi * cos theta) * (rho * (sin phi * cos theta)) +
           (rho * (cos phi * cos theta) * (rho * (cos phi * cos theta)) +
            (rho * sin theta * (rho * sin theta) + 0)))
    with (rho * rho * ((sin phi * sin phi + cos phi * cos phi) * (cos theta * cos theta)
                        + sin theta * sin theta)) by ring.
  rewrite Hp. replace (1 * (cos theta * cos theta) + sin theta * sin theta)
    with (sin theta * sin theta + cos theta * cos theta) by ring.
  rewrite Ht. ring.
Qed.

(** X6: the vector that [sph2vec] builds has the length [|rho|]; it is a
    unit vector for the default radius, and the zero vector for the radius 0
    only. *)
Theorem sph2vec_length (theta phi rho : R) :
  norm (sph2vec theta phi rho) = Rabs rho
  /\ norm (sph2vec theta phi 1) = 1
  /\ (norm (sph2vec theta phi rho) = 0 <-> rho = 0).
Proof.
  rewrite !norm_sph2vec. split; [reflexivity |]. split.
  - apply Rabs_pos_eq. lra.
  - split.
    + intros H. destruct (Req_dec_T rho 0) as [E | E]; [assumption |].
      apply Rabs_no_R0 in E. contradiction.
    + intros ->. apply Rabs_R0.
Qed.

Lemma cos_period_Z (x : R) (k : Z) : cos (x + 2 * PI * IZR k) = cos x.
Proof.
  destruct (Z_le_gt_dec 0 k) as [Hk | Hk].
  - rewrite <- (cos_period x (Z.to_nat k)). f_equal.
    rewrite INR_IZR_INZ, Z2Nat.id by assumption. ring.
  - rewrite <- (cos_period (x + 2 * PI * IZR k) (Z.to_nat (- k))). f_equal.
    rewrite INR_IZR_INZ, Z2Nat.id by lia. rewrite opp_IZR. ring.
Qed.

Lemma sin_period_Z (x : R) (k : Z) : sin (x + 2 * PI * IZR k) = sin x.
Proof.
  destruct (Z_le_gt_dec 0 k) as [Hk | Hk].
  - rewrite <- (sin_period x (Z.to_nat k)). f_equal.
    rewrite INR_IZR_INZ, Z2Nat.id by assumption. ring.
  - rewrite <- (sin_period (x + 2 * PI * IZR k) (Z.to_nat (- k))). f_equal.
    rewrite INR_IZR_INZ, Z2Nat.id by lia. rewrite opp_IZR. ring.
Qed.

Lemma sph2vec_turns (theta phi rho : R) (k : Z) :
  sph2vec theta (phi + 2 * PI * IZR k) rho = sph2vec theta phi rho.
Proof. unfold sph2vec. now rewrite sin_period_Z, cos_period_Z. Qed.

Lemma sph2vec_fold_up (theta phi rho : R) :
  sph2vec (PI - theta) (phi + PI) rho = sph2vec theta phi rho.
Proof.
  unfold sph2vec. rewrite neg_sin, neg_cos, sin_PI_x, Rtrigo_facts.cos_pi_minus.
  apply cons_eq; [| apply cons_eq; [| apply cons_eq]]; try reflexivity; ring.
Qed.

Lemma sph2vec_fold_down (theta phi rho : R) :
  sph2vec (- PI - theta) (phi + PI) rho = sph2vec theta phi rho.
Proof.
  unfold sph2vec. replace (- PI - theta) with (- (theta + PI)) by ring.
  rewrite sin_neg, cos_neg, !neg_sin, !neg_cos.
  apply cons_eq; [| apply cons_eq; [| apply cons_eq]]; try reflexivity; ring.
Qed.

(** X7: the coordinates that [sphadj] treats as the same direction are the
    same vector: a full turn of the azimuth, and a fold of the elevation over
    either pole together with half a turn of the azimuth. *)
Theorem sph2vec_same_direction (theta phi rho : R) (k : Z) :
  sph2vec theta (phi + 2 * PI * IZR k) rho = sph2vec theta phi rho
  /\ sph2vec (PI - theta) (phi + PI) rho = sph2vec theta phi rho
  /\ sph2vec (- PI - theta) (phi + PI) rho = sph2vec theta phi rho.
Proof.
  split; [apply sph2vec_turns |].
  split; [apply sph2vec_fold_up | apply sph2vec_fold_down].
Qed.

(** ** [vec2pol] and [pol2vec] *)

(** Two angles of [(-pi, pi]] with the same sine and cosine are equal. *)
Lemma same_angle (a b : R) :
  - PI < a <= PI -> - PI < b <= PI -> sin a = sin b -> cos a = cos b -> a = b.
Proof.
  intros Ha Hb Hs Hc. pose proof PI_RGT_0 as HPI.
  assert (Hsd : sin (a - b) = 0) by (rewrite sin_minus, Hs, Hc; ring).
  assert (Hcd : cos (a - b) = 1).
  { rewrite cos_minus, Hs, Hc. pose proof (sin_cos_sqr b). lra. }
  destruct (sin_eq_0_0 _ Hsd) as [k Hk].
  assert (Hk0 : k = 0%Z).
  { destruct (Z.lt_trichotomy k 0) as [Hlt | [Heq | Hgt]]; [| assumption |].
    - assert (Hle : IZR k <= -1) by (apply IZR_le; lia).
      destruct (Z.eq_dec k (-1)) as [-> | Hne].
      + exfalso. replace (a - b) with (- PI) in Hcd by lra.
        rewrite cos_neg, cos_PI in Hcd. lra.
      + assert (IZR k <= -2) by (apply IZR_le; lia). exfalso. nra.
    - assert (Hle : 1 <= IZR k) by (apply IZR_le; lia).
      destruct (Z.eq_dec k 1) as [-> | Hne].
      + exfalso. replace (a - b) with PI in Hcd by lra.
        rewrite cos_PI in Hcd. lra.
      + assert (2 <= IZR k) by (apply IZR_le; lia). exfalso. nra. }
  subst k. lra.
Qed.

(** [arctan2] finds the angle of a point given by radius and angle. *)
Lemma arctan2_of_polar (rho phi : R) :
  0 < rho -> - PI < phi <= PI -> arctan2 (rho * sin phi) (rho * cos phi) = phi.
Proof.
  intros Hrho Hphi.
  destruct (arctan2_polar (rho * sin phi) (rho * cos phi)) as [Hs Hc].
  assert (Hr : sqrt (rho * sin phi * (rho * sin phi) + rho * cos phi * (rho * cos phi))
               = rho).
  { replace (rho * sin phi * (rho * sin phi) + rho * cos phi * (rho * cos phi))
      with (rho * rho * (sin phi * sin phi + cos phi * cos phi)) by ring.
    rewrite sin_cos_sqr, Rmult_1_r. apply sqrt_square. lra. }
  rewrite Hr in Hs, Hc.
  apply same_angle; [apply arctan2_bound | assumption | |].
  - apply Rmult_eq_reg_r with rho; lra.
  - apply Rmult_eq_reg_r with rho; lra.
Qed.

(** X8: [pol2vec] undoes [vec2pol] in the packed form, for every point, the
    origin included; components after the second are dropped. *)
Theorem pol2vec_vec2pol_packed (x y : R) (rest : list R) :
  pol2vec_packed (vec2pol_packed (x :: y :: rest)) = [x; y].
Proof.
  unfold vec2pol_packed, pol2vec_packed.
  destruct (arctan2_polar y x) as [Hs Hc].
  replace (y * y + x * x) with (x * x + y * y) in Hs, Hc by ring.
  apply cons_eq; [| apply cons_eq; [| reflexivity]]; lra.
Qed.

(** X9: in the form with two arguments [pol2vec] gives the components of
    [vec2pol] back in the other order: the point [(x, y)] comes back as
    [(y, x)]. *)
Theorem pol2vec_vec2pol_swaps (x y : R) :
  pol2vec (fst (vec2pol x y)) (snd (vec2pol x y)) = (y, x).
Proof.
  unfold vec2pol, pol2vec. simpl.
  destruct (arctan2_polar x y) as [Hs Hc]. f_equal; lra.
Qed.

(** X10: [vec2pol] undoes [pol2vec] in the packed form for a positive radius
    and an angle of [(-pi, pi]]. *)
Theorem vec2pol_pol2vec_packed (rho phi : R) (rest : list R) :
  0 < rho -> - PI < phi <= PI ->
  vec2pol_packed (pol2vec_packed (rho :: phi :: rest)) = [rho; phi].
Proof.
  intros Hrho Hphi. unfold pol2vec_packed, vec2pol_packed.
  apply cons_eq; [| apply cons_eq; [| reflexivity]].
  - replace (rho * cos phi * (rho * cos phi) + rho * sin phi * (rho * sin phi))
      with (rho * rho * (sin phi * sin phi + cos phi * cos phi)) by ring.
    rewrite sin_cos_sqr, Rmult_1_r. apply sqrt_square. lra.
  - now apply arctan2_of_polar.
Qed.

Lemma vec2pol_pol2vec_packed_witness :
  vec2pol_packed (pol2vec_packed [2; 1]) = [2; 1].
Proof.
  apply (vec2pol_pol2vec_packed 2 1 []).
  - lra.
  - pose proof PI_bounds. lra.
Defined.

(** X11: [vec2pol] answers a radius that is not negative, and zero at the
    origin only, and an angle of [(-pi, pi]], in both forms. *)
Theorem vec2pol_canonical (x y : R) :
  0 <= fst (vec2pol x y)
  /\ (fst (vec2pol x y) = 0 <-> x = 0 /\ y = 0)
  /\ - PI < snd (vec2pol x y) <= PI
  /\ vec2pol_packed [x; y] = [fst (vec2pol x y); arctan2 y x]
  /\ - PI < arctan2 y x <= PI.
Proof.
  unfold vec2pol, vec2pol_packed. simpl.
  assert (Hzero : sqrt (x * x + y * y) = 0 -> x = 0 /\ y = 0).
  { intros H. apply sqrt_eq_0 in H; [split; nra | nra]. }
  split; [apply sqrt_pos |]. split; [split; [exact Hzero |] |].
  - intros [-> ->]. replace (0 * 0 + 0 * 0) with 0 by ring. apply sqrt_0.
  - split; [apply arctan2_bound |]. split; [reflexivity | apply arctan2_bound].
Qed.

(** ** More on [angle_between] *)

(** X12: exchanging the two angles negates the signed difference, except that
    the difference of half a turn is [-pi] both ways; the unsigned difference
    is symmetric. *)
Theorem angle_between_swap (ang1 ang2 : R) :
  (angle_between ang1 ang2 true <> - PI ->
   angle_between ang2 ang1 true = - angle_between ang1 ang2 true)
  /\ (angle_between ang1 ang2 true = - PI -> angle_between ang2 ang1 true = - PI)
  /\ angle_between ang2 ang1 false = angle_between ang1 ang2 false.
Proof.
  pose proof PI_RGT_0 as HPI.
  pose proof (angle_between_signed_bound ang1 ang2) as Hb.
  destruct (angle_between_signed_congr ang1 ang2) as [k Hk].
  assert (Hneg : angle_between ang1 ang2 true <> - PI ->
                 angle_between ang2 ang1 true = - angle_between ang1 ang2 true).
  { intros Hne. apply angle_between_value with (k := k); lra. }
  assert (Hhalf : angle_between ang1 ang2 true = - PI ->
                  angle_between ang2 ang1 true = - PI).
  { intros He. apply angle_between_value with (k := (k + 1)%Z); [lra |].
    rewrite plus_IZR. lra. }
  split; [exact Hneg |]. split; [exact Hhalf |].
  change (Rabs (angle_between ang2 ang1 true) = Rabs (angle_between ang1 ang2 true)).
  destruct (Req_dec_T (angle_between ang1 ang2 true) (- PI)) as [He | Hne].
  - now rewrite (Hhalf He), He.
  - rewrite (Hneg Hne). apply Rabs_Ropp.
Qed.

Lemma angle_between_swap_witness :
  angle_between 0 1 true = - angle_between 1 0 true.
Proof.
  apply (proj1 (angle_between_swap 1 0)).
  pose proof PI_bounds as HPI.
  rewrite (angle_between_value 1 0 1 0); lra.
Defined.

(** X13: full turns added to either angle do not change the difference. *)
Theorem angle_between_periodic (ang1 ang2 : R) (j k : Z) (sign : bool) :
  angle_between (ang1 + 2 * PI * IZR j) (ang2 + 2 * PI * IZR k) sign
  = angle_between ang1 ang2 sign.
Proof.
  assert (H : angle_between (ang1 + 2 * PI * IZR j) (ang2 + 2 * PI * IZR k) true
              = angle_between ang1 ang2 true).
  { destruct (angle_between_signed_congr ang1 ang2) as [m Hm].
    apply angle_between_value with (k := (j - k - m)%Z).
    - apply angle_between_signed_bound.
    - rewrite !minus_IZR. lra. }
  destruct sign; [exact H |].
  change (Rabs (angle_between (ang1 + 2 * PI * IZR j) (ang2 + 2 * PI * IZR k) true)
          = Rabs (angle_between ang1 ang2 true)).
  now rewrite H.
Qed.

(** X14: the difference is zero exactly when the two angles differ by a whole
    number of turns. *)
Theorem angle_between_zero (ang1 ang2 : R) (sign : bool) :
  angle_between ang1 ang2 sign = 0 <-> exists k : Z, ang1 - ang2 = 2 * PI * IZR k.
Proof.
  pose proof PI_RGT_0 as HPI.
  assert (H : angle_between ang1 ang2 true = 0 <->
              exists k : Z, ang1 - ang2 = 2 * PI * IZR k).
  { split.
    - intros H0. destruct (angle_between_signed_congr ang1 ang2) as [k Hk].
      exists (- k)%Z. rewrite opp_IZR. lra.
    - intros [k Hk]. apply angle_between_value with (k := k); lra. }
  destruct sign; [exact H |]. rewrite <- H.
  change (Rabs (angle_between ang1 ang2 true) = 0 <-> angle_between ang1 ang2 true = 0).
  split.
  - intros Ha. destruct (Req_dec_T (angle_between ang1 ang2 true) 0) as [E | E];
      [assumption |]. apply Rabs_no_R0 in E. contradiction.
  - intros ->. apply Rabs_R0.
Qed.

Lemma modulo_fold_default (x : R) :
  modulo_fold (- PI) PI x = np_mod (x + PI) (2 * PI) - PI.
Proof.
  unfold modulo_fold.
  replace (x - - PI) with (x + PI) by ring.
  replace (PI - - PI) with (2 * PI) by ring. ring.
Qed.

(** X15: [aziadj] of the difference of two angles (as numpy scalars) finishes
    and is their [angle_between]. *)
Theorem aziadj_is_angle_between (ang1 ang2 : R) (h : heap) :
  exists n : nat, forall fuel, (n <= fuel)%nat ->
    aziadj fuel (Scalar (ang1 - ang2)) h
    = Ok (Some (Scalar (angle_between ang1 ang2 true)), h).
Proof.
  destruct (azimuth_scalar (- PI) PI (ang1 - ang2) h default_width) as (n & Hrun).
  exists n. intros fuel Hfuel.
  unfold aziadj, sphadj. rewrite sphadj_azimuth_only, (Hrun fuel Hfuel).
  cbn [rbind]. rewrite modulo_fold_default. reflexivity.
Qed.

(** ** [sphadj] and [eleadj] on scalars *)

Lemma elevation_scalar (theta : R) (phi : option R) (h : heap) :
  Sphadj.elevation (Some (Scalar theta)) (option_map Scalar phi)
    (- PI / 2) (PI / 2) h
  = Ok (Some (Scalar (fold_theta theta)),
        option_map (fun p => Scalar (shift_phi theta p)) phi, h).
Proof.
  unfold Sphadj.elevation, fold_theta, shift_phi. simpl contents. cbv zeta.
  rewrite !forallb_singleton, !existsb_singleton.
  unfold Sphadj.shift_all, np_all.
  destruct (Rgeb theta (PI / 2)) eqn:Ea.
  - destruct phi as [p |]; simpl; [| reflexivity].
    destruct (Reqb p 0); reflexivity.
  - destruct (Rltb theta (- PI / 2)) eqn:Eb.
    + destruct phi as [p |]; simpl; [| reflexivity].
      destruct (Reqb p 0); reflexivity.
    + destruct phi as [p |]; reflexivity.
Qed.

Lemma fold_theta_cases (theta : R) :
  (PI / 2 <= theta /\ fold_theta theta = PI - theta)
  \/ (theta < - PI / 2 /\ fold_theta theta = - PI - theta)
  \/ (- PI / 2 <= theta < PI / 2 /\ fold_theta theta = theta).
Proof.
  pose proof PI_RGT_0 as HPI. unfold fold_theta.
  destruct (Rle_dec (PI / 2) theta) as [Ha | Ha].
  - left. rewrite Rgeb_true by assumption. tauto.
  - rewrite Rgeb_false by lra. destruct (Rlt_dec theta (- PI / 2)) as [Hb | Hb].
    + right. left. rewrite Rltb_true by assumption. tauto.
    + right. right. rewrite Rltb_false by lra. split; [lra | reflexivity].
Qed.

(** X16: on a scalar [eleadj] folds once: over the upper pole from [pi/2]
    on, over the lower pole below [-pi/2].  The sine of the elevation is
    kept; the result lies in [[-pi/2, pi/2]] exactly when the elevation was
    within [[-3*pi/2, 3*pi/2]], so an elevation further out stays out of
    range. *)
Theorem eleadj_folds_once (fuel : nat) (theta : R) (h : heap) :
  eleadj fuel (Scalar theta) h = Ok (Some (Scalar (fold_theta theta)), h)
  /\ sin (fold_theta theta) = sin theta
  /\ (- PI / 2 <= fold_theta theta <= PI / 2
      <-> - (3 * PI / 2) <= theta <= 3 * PI / 2).
Proof.
  pose proof PI_RGT_0 as HPI. split; [| split].
  - unfold eleadj, sphadj, Sphadj.sphadj.
    pose proof (elevation_scalar theta None h) as E. cbn [option_map] in E.
    rewrite E. reflexivity.
  - destruct (fold_theta_cases theta) as [[_ ->] | [[_ ->] | [_ ->]]].
    + apply sin_PI_x.
    + replace (- PI - theta) with (- (theta + PI)) by ring.
      rewrite sin_neg, neg_sin. ring.
    + reflexivity.
  - destruct (fold_theta_cases theta) as [[H ->] | [[H ->] | [H ->]]]; lra.
Qed.

Lemma modulo_fold_congr (x : R) :
  exists k : Z, modulo_fold (- PI) PI x = x + 2 * PI * IZR k.
Proof.
  exists (- Zfloor ((x - - PI) / (PI - - PI)))%Z.
  unfold modulo_fold. rewrite np_mod_congr. lra.
Qed.

Lemma sph2vec_modulo_fold (theta phi rho : R) :
  sph2vec theta (modulo_fold (- PI) PI phi) rho = sph2vec theta phi rho.
Proof.
  destruct (modulo_fold_congr phi) as [k ->].
  apply sph2vec_turns.
Qed.

Lemma sphadj_scalar_general (theta phi : R) (h : heap) :
  exists n : nat, forall fuel, (n <= fuel)%nat ->
    sphadj fuel (Some (Scalar theta)) (Some (Scalar phi)) h
    = Ok (Some (Scalar (fold_theta theta)),
          Some (Scalar (modulo_fold (- PI) PI (shift_phi theta phi))), h).
Proof.
  destruct (azimuth_scalar (- PI) PI (shift_phi theta phi) h default_width)
    as (n & Hrun).
  exists n. intros fuel Hfuel. unfold sphadj, Sphadj.sphadj.
  pose proof (elevation_scalar theta (Some phi) h) as E. cbn [option_map] in E.
  rewrite E. cbn [rbind].
  rewrite (Hrun fuel Hfuel). reflexivity.
Qed.

(** X17: on scalars [sphadj] finishes with an azimuth in [[-pi, pi)], and the
    adjusted coordinates are the same direction as the given ones whenever
    the azimuth is not exactly 0 or the elevation needed no fold.  With an
    azimuth of exactly 0 and an elevation that is folded the half turn is
    left out and the direction comes back mirrored: [y] is negated. *)
Theorem sphadj_scalar_direction (theta phi rho : R) (h : heap) :
  exists (n : nat) (theta' phi' : R),
    (forall fuel, (n <= fuel)%nat ->
       sphadj fuel (Some (Scalar theta)) (Some (Scalar phi)) h
       = Ok (Some (Scalar theta'), Some (Scalar phi'), h))
    /\ - PI <= phi' < PI
    /\ (phi <> 0 \/ - PI / 2 <= theta < PI / 2 ->
        sph2vec theta' phi' rho = sph2vec theta phi rho)
    /\ (phi = 0 -> ~ (- PI / 2 <= theta < PI / 2) ->
        sph2vec theta phi rho = [0; rho * cos theta; rho * sin theta]
        /\ sph2vec theta' phi' rho = [0; - (rho * cos theta); rho * sin theta]).
Proof.
  pose proof PI_RGT_0 as HPI.
  destruct (sphadj_scalar_general theta phi h) as (n & Hrun).
  exists n, (fold_theta theta), (modulo_fold (- PI) PI (shift_phi theta phi)).
  split; [exact Hrun |]. split; [apply modulo_fold_bound; apply default_width |].
  rewrite sph2vec_modulo_fold. unfold shift_phi.
  pose proof (sph2vec_fold_up theta phi rho) as Hup.
  pose proof (sph2vec_fold_down theta phi rho) as Hdown.
  split.
  - intros Hok.
    destruct (fold_theta_cases theta) as [[H ->] | [[H ->] | [H ->]]].
    + rewrite Rgeb_true by assumption. simpl.
      destruct Hok as [Hphi | Hin]; [| lra].
      rewrite Reqb_false by assumption. exact Hup.
    + rewrite Rgeb_false, Rltb_true by lra. simpl.
      destruct Hok as [Hphi | Hin]; [| lra].
      rewrite Reqb_false by assumption. exact Hdown.
    + rewrite Rgeb_false, Rltb_false by lra. reflexivity.
  - intros -> Hout. unfold sph2vec. rewrite sin_0, cos_0.
    split; [apply cons_eq; [| apply cons_eq; [| reflexivity]]; ring |].
    destruct (fold_theta_cases theta) as [[H ->] | [[H ->] | [H ->]]]; [| | lra].
    + rewrite Rgeb_true by assumption. simpl. rewrite Reqb_true by reflexivity.
      rewrite sin_0, cos_0, sin_PI_x, Rtrigo_facts.cos_pi_minus.
      apply cons_eq; [| apply cons_eq; [| reflexivity]]; ring.
    + rewrite Rgeb_false, Rltb_true by lra. simpl. rewrite Reqb_true by reflexivity.
      replace (- PI - theta) with (- (theta + PI)) by ring.
      rewrite sin_0, cos_0, sin_neg, cos_neg, neg_sin, neg_cos.
      apply cons_eq; [| apply cons_eq; [| apply cons_eq]]; try reflexivity; ring.
Qed.

(** ** More on [aziadj] *)

Lemma modulo_fold_trig (x : R) :
  sin (modulo_fold (- PI) PI x) = sin x /\ cos (modulo_fold (- PI) PI x) = cos x.
Proof.
  destruct (modulo_fold_congr x) as [k ->].
  split; [apply sin_period_Z | apply cos_period_Z].
Qed.

(** X18: on a scalar or a nonempty array [aziadj] finishes with every
    azimuth in [[-pi, pi)], and a second [aziadj] on what it returned changes
    neither the values nor the heap. *)
Theorem aziadj_idempotent (p : ndval) (h : heap) :
  contents h p <> [] ->
  exists n : nat, forall fuel, (n <= fuel)%nat ->
    exists (p' : ndval) (h' : heap),
      aziadj fuel p h = Ok (Some p', h')
      /\ Forall (fun x => - PI <= x < PI) (contents h' p')
      /\ aziadj fuel p' h' = Ok (Some p', h').
Proof.
  intros Hne. destruct (aziadj_fold p h Hne) as (n & Hrun).
  exists (S n). intros fuel Hfuel.
  destruct (Hrun fuel ltac:(lia)) as (p' & h' & Hp & Hc).
  exists p', h'. split; [assumption |].
  assert (Hin : Forall (fun x => - PI <= x < PI) (contents h' p')).
  { rewrite Hc. apply Forall_map, Forall_forall. intros x _.
    apply modulo_fold_bound, default_width. }
  split; [assumption |].
  destruct fuel as [| fuel]; [lia |].
  unfold aziadj, sphadj. rewrite sphadj_within; [reflexivity | exact I |].
  split; [| assumption]. rewrite Hc. destruct (contents h p); simpl; congruence.
Qed.

Lemma aziadj_idempotent_witness :
  exists n : nat, forall fuel, (n <= fuel)%nat ->
    exists (p' : ndval) (h' : heap),
      aziadj fuel (Array 0%nat) [[4; 1]] = Ok (Some p', h')
      /\ Forall (fun x => - PI <= x < PI) (contents h' p')
      /\ aziadj fuel p' h' = Ok (Some p', h').
Proof.
  apply (aziadj_idempotent (Array 0%nat) [[4; 1]]). simpl. discriminate.
Defined.

(** X19: [aziadj] keeps the sine and the cosine of every azimuth: the folded
    azimuths are the same directions. *)
Theorem aziadj_keeps_direction (p : ndval) (h : heap) :
  contents h p <> [] ->
  exists n : nat, forall fuel, (n <= fuel)%nat ->
    exists (p' : ndval) (h' : heap),
      aziadj fuel p h = Ok (Some p', h')
      /\ map sin (contents h' p') = map sin (contents h p)
      /\ map cos (contents h' p') = map cos (contents h p).
Proof.
  intros Hne. destruct (aziadj_fold p h Hne) as (n & Hrun).
  exists n. intros fuel Hfuel.
  destruct (Hrun fuel Hfuel) as (p' & h' & Hp & Hc).
  exists p', h'. split; [assumption |]. rewrite Hc, !map_map.
  split; apply map_ext; intros x; apply modulo_fold_trig.
Qed.

Lemma aziadj_keeps_direction_witness :
  exists n : nat, forall fuel, (n <= fuel)%nat ->
    exists (p' : ndval) (h' : heap),
      aziadj fuel (Scalar 7) [] = Ok (Some p', h')
      /\ map sin (contents h' p') = map sin (contents [] (Scalar 7))
      /\ map cos (contents h' p') = map cos (contents [] (Scalar 7)).
Proof.
  apply (aziadj_keeps_direction (Scalar 7) []). simpl. discriminate.
Defined.

(** ** The whole-array branch of the elevation *)

Lemma np_all_nonzero (b : loc) (h : heap) :
  Forall (fun x => x <> 0) (read h b) -> np_all (Some (Array b)) h = true.
Proof.
  intros H. unfold np_all. simpl contents. apply forallb_forall. intros x Hx.
  rewrite Forall_forall in H. rewrite Reqb_false by now apply H. reflexivity.
Qed.

(** X20: when every elevation of an array is at or above [theta_max] and no
    azimuth is 0, [sphadj] returns the folded elevations in a new array and
    leaves the caller's elevation array as it was, while the caller's
    azimuth array is shifted by [pi] in place. *)
Theorem elevation_all_above (a b : loc) (theta_min theta_max : R) (h : heap) :
  (a < length h)%nat -> (b < length h)%nat ->
  Forall (fun x => theta_max <= x) (read h a) ->
  Forall (fun x => x <> 0) (read h b) ->
  exists h' : heap,
    Sphadj.elevation (Some (Array a)) (Some (Array b)) theta_min theta_max h
    = Ok (Some (Array (length h)), Some (Array b), h')
    /\ read h' (length h) = map (fun x => PI - x) (read h a)
    /\ read h' b = map (fun x => x + PI) (read h b)
    /\ (a <> b -> read h' a = read h a).
Proof.
  intros Ha Hb Hall Hnz. unfold Sphadj.elevation. simpl contents. cbv zeta.
  assert (E : forallb (fun x => Rgeb x theta_max) (read h a) = true).
  { apply forallb_forall. intros x Hx. rewrite Forall_forall in Hall.
    apply Rgeb_true. now apply Hall. }
  rewrite E. unfold rsub, alloc, Sphadj.shift_all.
  set (h1 := h ++ [map (fun x => PI - x) (read h a)]).
  assert (Hb1 : read h1 b = read h b) by now apply read_alloc_old.
  rewrite np_all_nonzero by now rewrite Hb1.
  unfold iadd. rewrite Hb1.
  assert (Hlen : (b < length h1)%nat).
  { unfold h1. rewrite length_app. simpl. lia. }
  eexists. split; [reflexivity |]. split; [| split].
  - rewrite read_write_other by lia. apply read_alloc_new.
  - now apply read_write_same.
  - intros Hab. rewrite read_write_other by congruence. now apply read_alloc_old.
Qed.

Lemma elevation_all_above_witness :
  exists h' : heap,
    Sphadj.elevation (Some (Array 0%nat)) (Some (Array 1%nat)) (- PI / 2) (PI / 2)
      [[3; 2]; [1; 1]]
    = Ok (Some (Array 2%nat), Some (Array 1%nat), h')
    /\ read h' 2%nat = map (fun x => PI - x) [3; 2]
    /\ read h' 1%nat = map (fun x => x + PI) [1; 1]
    /\ (0%nat <> 1%nat -> read h' 0%nat = [3; 2]).
Proof.
  pose proof PI_bounds as HPI.
  apply (elevation_all_above 0%nat 1%nat (- PI / 2) (PI / 2) [[3; 2]; [1; 1]]).
  - simpl. lia.
  - simpl. lia.
  - apply Forall_cons; [lra | apply Forall_cons; [lra | apply Forall_nil]].
  - apply Forall_cons; [lra | apply Forall_cons; [lra | apply Forall_nil]].
Defined.

(** ** More on [vec2sph] and [sph2vec] *)

Lemma radius_sph2vec (theta phi rho : R) :
  0 < rho -> radius (sph2vec theta phi rho) = rho.
Proof.
  intros Hrho. unfold radius. rewrite norm_sph2vec, Rabs_pos_eq by lra.
  destruct (Req_dec_T rho 0); [lra | reflexivity].
Qed.

(** [vec2sph] after [sph2vec], for any azimuth. *)
Lemma vec2sph_of_sph2vec (fuel : nat) (a : loc) (h : heap) (theta phi rho : R) :
  read h a = sph2vec theta phi rho ->
  0 < rho -> - PI / 2 < theta < PI / 2 ->
  vec2sph (S (S fuel)) (Vec1 a) h
  = Ok (Flat [theta; modulo_fold (- PI) PI phi; rho], h).
Proof.
  intros Hread Hrho Htheta. pose proof PI_RGT_0 as HPI.
  rewrite <- sph2vec_modulo_fold in Hread.
  pose proof (modulo_fold_bound (- PI) PI default_width phi) as Hphi.
  set (psi := modulo_fold (- PI) PI phi) in *.
  rewrite (vec2sph_single fuel a h _ _ _ Hread).
  change [rho * (sin psi * cos theta); rho * (cos psi * cos theta); rho * sin theta]
    with (sph2vec theta psi rho).
  rewrite radius_sph2vec by assumption.
  replace (rho * sin theta / rho) with (cos (PI / 2 - theta))
    by (rewrite cos_shift; field; lra).
  rewrite acos_cos by lra.
  replace (rho * (sin psi * cos theta) / rho) with (cos theta * sin psi) by (field; lra).
  replace (rho * (cos psi * cos theta) / rho) with (cos theta * cos psi) by (field; lra).
  assert (Hc : 0 < cos theta) by (apply cos_gt_0; lra).
  assert (Hat : arctan2 (cos theta * sin psi) (cos theta * cos psi)
                = if Req_dec_T psi (- PI) then PI else psi).
  { destruct (Req_dec_T psi (- PI)) as [-> | Hne].
    - rewrite sin_neg, cos_neg.
      replace (- sin PI) with (sin PI) by (rewrite sin_PI; ring).
      apply arctan2_of_polar; lra.
    - assert (- PI < psi).
      { destruct Hphi as [[Hlt | Heq] _]; [exact Hlt | congruence]. }
      apply arctan2_of_polar; lra. }
  rewrite Hat. apply f_equal. apply f_equal2; [| reflexivity]. apply f_equal.
  apply cons_eq; [lra |]. apply cons_eq; [| reflexivity].
  destruct (Req_dec_T psi (- PI)) as [-> | Hne].
  - destruct (Req_dec_T PI PI); [reflexivity | contradiction].
  - destruct (Req_dec_T psi PI); [lra | reflexivity].
Qed.

(** X21: [vec2sph] undoes [sph2vec] for a positive radius, an elevation
    strictly between the poles and an azimuth of [[-pi, pi)]. *)
Theorem vec2sph_sph2vec (fuel : nat) (a : loc) (h : heap) (theta phi rho : R) :
  read h a = sph2vec theta phi rho ->
  0 < rho -> - PI / 2 < theta < PI / 2 -> - PI <= phi < PI ->
  vec2sph (S (S fuel)) (Vec1 a) h = Ok (Flat [theta; phi; rho], h).
Proof.
  intros Hread Hrho Htheta Hphi.
  rewrite (vec2sph_of_sph2vec fuel a h theta phi rho) by assumption.
  rewrite modulo_fold_id by assumption. reflexivity.
Qed.

Lemma vec2sph_sph2vec_witness :
  vec2sph 2 (Vec1 0%nat) [sph2vec 0 1 2] = Ok (Flat [0; 1; 2], [sph2vec 0 1 2]).
Proof.
  pose proof PI_bounds as HPI.
  apply (vec2sph_sph2vec 0 0%nat [sph2vec 0 1 2] 0 1 2); try reflexivity; lra.
Defined.

Lemma norm3_scale (c x y z : R) :
  0 < c -> norm [c * x; c * y; c * z] = c * norm [x; y; z].
Proof.
  intros Hc. unfold norm, sumsq. simpl.
  replace (c * x * (c * x) + (c * y * (c * y) + (c * z * (c * z) + 0)))
    with (c * c * (x * x + (y * y + (z * z + 0)))) by ring.
  rewrite sqrt_mult; [| nra | nra]. rewrite sqrt_square by lra. reflexivity.
Qed.

(** X22: the angles that [vec2sph] returns do not depend on the length of
    the vector: a positive multiple of a vector that is not the zero vector
    has the same elevation and azimuth, and the radius multiplied. *)
Theorem vec2sph_scale (fuel : nat) (a1 a2 : loc) (h1 h2 : heap) (x y z c : R) :
  read h1 a1 = [x; y; z] -> read h2 a2 = [c * x; c * y; c * z] ->
  0 < c -> norm [x; y; z] <> 0 ->
  exists theta phi : R,
    vec2sph (S (S fuel)) (Vec1 a1) h1 = Ok (Flat [theta; phi; norm [x; y; z]], h1)
    /\ vec2sph (S (S fuel)) (Vec1 a2) h2
       = Ok (Flat [theta; phi; c * norm [x; y; z]], h2).
Proof.
  intros H1 H2 Hc Hn. pose proof (norm_nonneg [x; y; z]) as Hpos.
  rewrite (vec2sph_single fuel a1 h1 x y z H1).
  rewrite (vec2sph_single fuel a2 h2 _ _ _ H2).
  assert (Hr : radius [x; y; z] = norm [x; y; z]).
  { unfold radius. destruct (Req_dec_T (norm [x; y; z]) 0); [contradiction | reflexivity]. }
  assert (Hrc : radius [c * x; c * y; c * z] = c * norm [x; y; z]).
  { unfold radius. rewrite norm3_scale by assumption.
    destruct (Req_dec_T (c * norm [x; y; z]) 0) as [E | _]; [| reflexivity].
    exfalso. apply Rmult_integral in E. destruct E; [lra | contradiction]. }
  rewrite Hr, Hrc.
  replace (c * x / (c * norm [x; y; z])) with (x / norm [x; y; z]) by (field; lra).
  replace (c * y / (c * norm [x; y; z])) with (y / norm [x; y; z]) by (field; lra).
  replace (c * z / (c * norm [x; y; z])) with (z / norm [x; y; z]) by (field; lra).
  do 2 eexists. split; reflexivity.
Qed.

Lemma vec2sph_scale_witness :
  exists theta phi : R,
    vec2sph 2 (Vec1 0%nat) [[1; 0; 0]; [2 * 1; 2 * 0; 2 * 0]]
    = Ok (Flat [theta; phi; norm [1; 0; 0]], [[1; 0; 0]; [2 * 1; 2 * 0; 2 * 0]])
    /\ vec2sph 2 (Vec1 1%nat) [[1; 0; 0]; [2 * 1; 2 * 0; 2 * 0]]
       = Ok (Flat [theta; phi; 2 * norm [1; 0; 0]], [[1; 0; 0]; [2 * 1; 2 * 0; 2 * 0]]).
Proof.
  apply (vec2sph_scale 0 0%nat 1%nat); try reflexivity; [lra |].
  rewrite norm_1_0_0. lra.
Defined.

(** X23: on a one-dimensional array with fewer than three components
    [vec2sph] raises an index error, the empty array included. *)
Theorem vec2sph_short_vector (fuel : nat) (a : loc) (h : heap) :
  (length (read h a) < 3)%nat ->
  vec2sph fuel (Vec1 a) h = Raise IndexOutOfRange.
Proof.
  intros Hlen. unfold vec2sph.
  pose proof (radius_pos (read h a)) as Hr.
  destruct (read h a) as [| x [| y [| z l]]]; simpl in Hlen; try lia; simpl;
    rewrite ?np_div_ok by lra; reflexivity.
Qed.

Lemma vec2sph_short_vector_witness :
  vec2sph 0 (Vec1 0%nat) [[1; 2]] = Raise IndexOutOfRange.
Proof. apply (vec2sph_short_vector 0 0%nat [[1; 2]]). simpl. lia. Defined.

Lemma elevation_within (theta phi : option ndval) (theta_min theta_max : R)
    (h : heap) :
  within theta_min theta_max h theta ->
  Sphadj.elevation theta phi theta_min theta_max h = Ok (theta, phi, h).
Proof.
  intros Ht. unfold Sphadj.elevation. destruct theta as [t |]; [| reflexivity].
  destruct Ht as [Hne Hin]. cbv zeta.
  rewrite (forallb_none _ _ Hne (within_not_above _ _ _ Hin)).
  rewrite (forallb_none _ _ Hne (within_not_below _ _ _ Hin)).
  rewrite (existsb_none _ _ (within_not_above _ _ _ Hin)).
  rewrite (existsb_none _ _ (within_not_below _ _ _ Hin)). reflexivity.
Qed.

Lemma modulo_fold_arctan2 (phi : R) :
  - PI < phi <= PI ->
  modulo_fold (- PI) PI phi = if Req_dec_T phi PI then - PI else phi.
Proof.
  intros Hphi. pose proof PI_RGT_0 as HPI.
  destruct (Req_dec_T phi PI) as [-> | Hne].
  - unfold modulo_fold.
    rewrite (np_mod_unique (PI - - PI) (PI - - PI) 0 1); lra.
  - assert (Hlt : phi < PI).
    { destruct Hphi as [_ [Hlt | Heq]]; [exact Hlt | contradiction]. }
    apply modulo_fold_id. lra.
Qed.

Lemma guarded_norm (v : list R) :
  (if Reqb (norm v) 0 then 1 else norm v) = radius v.
Proof. unfold Reqb, radius. destruct (Req_dec_T (norm v) 0); reflexivity. Qed.

(** The last steps of [vec2sph] on a batch of one row: the azimuth loops and
    the packing of the three arrays. *)
Lemma batch_of_one_tail (H : heap) (t p l : loc) (theta phi r : R) :
  read H t = [theta] -> read H p = [phi] -> read H l = [r] ->
  p <> t -> p <> l ->
  exists n : nat, forall fuel, (n <= fuel)%nat ->
    ('(p', h') <- Sphadj.azimuth fuel (Some (Array p)) (- PI) PI H ;;
     t' <- the (Some (Array t)) ;;
     q <- the p' ;;
     s <- pack t' q (Array l) h' ;;
     Ok (s, h'))
    = Ok (Rows [[theta; modulo_fold (- PI) PI phi; r]],
          write H p [modulo_fold (- PI) PI phi]).
Proof.
  intros Ht Hp Hl Hpt Hpl.
  assert (Hne : read H p <> []) by (rewrite Hp; discriminate).
  destruct (azimuth_array (- PI) PI p H default_width Hne) as (n & Hrun).
  exists n. intros fuel Hfuel. rewrite (Hrun fuel Hfuel). cbn [rbind the].
  rewrite Hp. cbn [map]. unfold pack.
  rewrite (read_write_other H p t) by assumption.
  rewrite (read_write_other H p l) by assumption.
  rewrite read_write_same by now apply read_nonempty_allocated.
  rewrite Ht, Hl. reflexivity.
Qed.

(** X24: a batch of one row is the batch [vec2sph] handles: it finishes and
    returns, as its only row, what it returns for that vector passed alone;
    and unless the vector is the zero vector, [sph2vec] of that batch gives
    the row back. *)
Theorem vec2sph_batch_of_one (x y z : R) (h : heap) :
  exists (n : nat) (theta phi rho : R),
    (forall fuel, (n <= fuel)%nat ->
       (exists h' : heap,
          vec2sph fuel (Vec2 [[x; y; z]]) h = Ok (Rows [[theta; phi; rho]], h'))
       /\ (forall (a : loc) (h0 : heap),
             read h0 a = [x; y; z] ->
             vec2sph fuel (Vec1 a) h0 = Ok (Flat [theta; phi; rho], h0)))
    /\ (norm [x; y; z] <> 0 ->
        sph2vec_packed (Rows [[theta; phi; rho]]) = Ok (Rows [[x; y; z]])).
Proof.
  pose proof PI_RGT_0 as HPI.
  pose proof (radius_pos [x; y; z]) as Hr.
  set (r := radius [x; y; z]) in *.
  set (phi0 := arctan2 (x / r) (y / r)).
  set (theta0 := PI / 2 - acos (z / r)).
  pose proof (acos_bound (z / r)) as Hac.
  pose proof (arctan2_bound (x / r) (y / r)) as Hat. fold phi0 in Hat.
  set (h2 := h ++ [[r]]).
  set (h3 := h2 ++ [[phi0]]).
  set (h4 := h3 ++ [[theta0]]).
  assert (L2 : length h2 = S (length h)) by (unfold h2; rewrite length_app; simpl; lia).
  assert (L3 : length h3 = S (length h2)) by (unfold h3; rewrite length_app; simpl; lia).
  assert (L4 : length h4 = S (length h3)) by (unfold h4; rewrite length_app; simpl; lia).
  assert (Rt : read h4 (length h3) = [theta0]) by apply read_alloc_new.
  assert (Rp : read h4 (length h2) = [phi0]).
  { unfold h4. rewrite read_alloc_old by lia. apply read_alloc_new. }
  assert (Rl : read h4 (length h) = [r]).
  { unfold h4. rewrite read_alloc_old by lia.
    unfold h3. rewrite read_alloc_old by lia. apply read_alloc_new. }
  (* the run up to the call of sphadj *)
  assert (Hstart : forall fuel,
            vec2sph fuel (Vec2 [[x; y; z]]) h =
            ('(theta', phi', h') <-
               sphadj fuel (Some (Array (length h3))) (Some (Array (length h2))) h4 ;;
             t <- the theta' ;; p <- the phi' ;;
             s <- pack t p (Array (length h)) h' ;; Ok (s, h'))).
  { intros fuel. rewrite vec2sph_batch_unfold. cbv zeta. cbn [map].
    rewrite guarded_norm. fold r. fold h2. unfold h2 at 1. rewrite read_alloc_new.
    unfold broadcast_div, row_div. cbn [map_result length Nat.eqb].
    rewrite !np_div_ok by lra. cbn [rbind map_result item nth_error].
    rewrite arccos_ok by apply normalised_bound. cbn [rbind].
    unfold alloc. reflexivity. }
  assert (Hfold : modulo_fold (- PI) PI phi0 = if Req_dec_T phi0 PI then - PI else phi0)
    by now apply modulo_fold_arctan2.
  assert (Hback : norm [x; y; z] <> 0 ->
                  sph2vec_packed (Rows [[theta0; modulo_fold (- PI) PI phi0; r]])
                  = Ok (Rows [[x; y; z]])).
  { intros Hn.
    pose proof (sph2vec_vec2sph_single 0 0%nat [[x; y; z]] x y z eq_refl Hn) as Hs.
    unfold sph2vec_vec2sph in Hs.
    rewrite (vec2sph_single 0 0%nat [[x; y; z]] x y z eq_refl) in Hs.
    fold r in Hs. fold phi0 in Hs. fold theta0 in Hs. rewrite <- Hfold in Hs.
    cbn [rbind] in Hs. unfold sph2vec_packed, unpack, item in Hs.
    cbn [nth_error rbind] in Hs. unfold sph2vec in Hs.
    unfold sph2vec_packed, component, shape1, item, times. simpl.
    congruence. }
  destruct (Req_dec_T theta0 (PI / 2)) as [Htop | Htop].
  - (* the upper pole: the elevation is folded into a new array *)
    assert (Hphi0 : phi0 = 0).
    { assert (Hz : z / r = 1).
      { apply acos_zero_inv; [apply normalised_bound | unfold theta0 in Htop; lra]. }
      destruct (normalised_pole x y z Hz) as [Hx Hy]. unfold phi0. rewrite Hx, Hy.
      replace (0 / r) with 0 by (field; lra). apply arctan2_0_0. }
    set (h5 := h4 ++ [[PI - theta0]]).
    assert (He : Sphadj.elevation (Some (Array (length h3))) (Some (Array (length h2)))
                   (- PI / 2) (PI / 2) h4
                 = Ok (Some (Array (length h4)), Some (Array (length h2)), h5)).
    { unfold Sphadj.elevation. simpl contents. cbv zeta. rewrite Rt.
      rewrite forallb_singleton, Rgeb_true by lra.
      unfold rsub, alloc. rewrite Rt. cbn [map]. fold h5.
      unfold Sphadj.shift_all, np_all. simpl contents.
      unfold h5. rewrite read_alloc_old by lia. rewrite Rp, Hphi0.
      rewrite forallb_singleton, Reqb_true by reflexivity. reflexivity. }
    destruct (batch_of_one_tail h5 (length h4) (length h2) (length h)
                (PI - theta0) phi0 r) as (n & Hrun).
    { apply read_alloc_new. }
    { unfold h5. now rewrite read_alloc_old by lia. }
    { unfold h5. now rewrite read_alloc_old by lia. }
    { lia. }
    { lia. }
    exists (S (S n)), theta0, (modulo_fold (- PI) PI phi0), r.
    split; [| exact Hback]. intros fuel Hfuel. split.
    + eexists. rewrite Hstart. unfold sphadj, Sphadj.sphadj. rewrite He.
      cbn [rbind].
      specialize (Hrun fuel ltac:(lia)).
      destruct (Sphadj.azimuth fuel (Some (Array (length h2))) (- PI) PI h5)
        as [[p' h'] | | |]; try discriminate.
      cbn [rbind] in Hrun |- *. rewrite Hrun.
      replace (PI - theta0) with theta0 by lra. reflexivity.
    + intros a h0 Hread. destruct fuel as [| [| fuel]]; try lia.
      rewrite (vec2sph_single fuel a h0 x y z Hread). fold r. fold phi0. fold theta0.
      now rewrite Hfold.
  - (* elsewhere the elevation stays *)
    assert (He : Sphadj.elevation (Some (Array (length h3))) (Some (Array (length h2)))
                   (- PI / 2) (PI / 2) h4
                 = Ok (Some (Array (length h3)), Some (Array (length h2)), h4)).
    { apply elevation_within. simpl. rewrite Rt. split; [discriminate |].
      apply Forall_cons; [unfold theta0 in *; lra | apply Forall_nil]. }
    destruct (batch_of_one_tail h4 (length h3) (length h2) (length h)
                theta0 phi0 r Rt Rp Rl) as (n & Hrun); try lia.
    exists (S (S n)), theta0, (modulo_fold (- PI) PI phi0), r.
    split; [| exact Hback]. intros fuel Hfuel. split.
    + eexists. rewrite Hstart. unfold sphadj, Sphadj.sphadj. rewrite He.
      cbn [rbind].
      specialize (Hrun fuel ltac:(lia)).
      destruct (Sphadj.azimuth fuel (Some (Array (length h2))) (- PI) PI h4)
        as [[p' h'] | | |]; try discriminate.
      cbn [rbind] in Hrun |- *. rewrite Hrun. reflexivity.
    + intros a h0 Hread. destruct fuel as [| [| fuel]]; try lia.
      rewrite (vec2sph_single fuel a h0 x y z Hread). fold r. fold phi0. fold theta0.
      now rewrite Hfold.
Qed.

(** ** [sph2vec] on packed coordinates *)

Lemma map_result_Forall2 {A B : Type} (f : A -> result B) (l : list A) (l' : list B) :
  map_result f l = Ok l' <-> Forall2 (fun x y => f x = Ok y) l l'.
Proof.
  revert l'. induction l as [| x l IH]; intros l'; simpl.
  - split.
    + intros [= <-]. constructor.
    + intros H. inversion H. reflexivity.
  - split.
    + intros H. apply rbind_ok in H. destruct H as (y & Hy & H).
      apply rbind_ok in H. destruct H as (ys & Hys & H). injection H as <-.
      constructor; [assumption | now apply IH].
    + intros H. inversion H as [| ? y ? ys Hy Hys]; subst.
      rewrite Hy. cbn [rbind]. apply IH in Hys. rewrite Hys. reflexivity.
Qed.

(** X25: a packed coordinate without a radius is taken on the unit sphere;
    with fewer than two components [sph2vec] raises an index error;
    components after the third are ignored. *)
Theorem sph2vec_packed_flat (c : list R) :
  match c with
  | theta :: phi :: rest =>
      let rho := match rest with r :: _ => r | [] => 1 end in
      sph2vec_packed (Flat c) = Ok (Flat (sph2vec theta phi rho))
      /\ norm (sph2vec theta phi rho) = Rabs rho
      /\ (rest = [] -> norm (sph2vec theta phi rho) = 1)
  | _ => sph2vec_packed (Flat c) = Raise IndexOutOfRange
  end.
Proof.
  destruct c as [| theta [| phi rest]]; try reflexivity.
  cbv zeta. split; [| split].
  - destruct rest; reflexivity.
  - apply norm_sph2vec.
  - intros ->. rewrite norm_sph2vec. apply Rabs_pos_eq. lra.
Qed.

Lemma item_ok (l : list R) (j : nat) :
  (j < length l)%nat -> item l j = Ok (nth j l 0).
Proof.
  intros H. unfold item. now rewrite (nth_error_nth' l 0 H).
Qed.

Lemma item_fail (l : list R) (j : nat) :
  (length l <= j)%nat -> item l j = Raise IndexOutOfRange.
Proof.
  intros H. unfold item. apply nth_error_None in H. now rewrite H.
Qed.

Lemma map_result_ok {A B : Type} (f : A -> result B) (g : A -> B) (l : list A) :
  Forall (fun x => f x = Ok (g x)) l -> map_result f l = Ok (map g l).
Proof.
  induction 1 as [| x l Hx _ IH]; simpl; [reflexivity |].
  rewrite Hx. cbn [rbind]. rewrite IH. reflexivity.
Qed.

Lemma component_ok (j : nat) (rows : list (list R)) :
  Forall (fun row => (j < length row)%nat) rows ->
  component j rows = Ok (map (fun row => nth j row 0) rows).
Proof.
  intros H. apply map_result_ok. eapply Forall_impl; [| exact H].
  intros row Hrow. now apply item_ok.
Qed.

Lemma component_fail (j : nat) (row : list R) (rows : list (list R)) :
  (length row <= j)%nat -> component j (row :: rows) = Raise IndexOutOfRange.
Proof.
  intros H. unfold component. simpl. now rewrite item_fail.
Qed.

Lemma zip_with_maps {A : Type} (f : R -> R -> R) (a b : A -> R) (l : list A) :
  zip_with f (map a l) (map b l) = map (fun r => f (a r) (b r)) l.
Proof. induction l as [| r l IH]; simpl; [reflexivity | now rewrite IH]. Qed.

Lemma zip3_maps {A : Type} (a b c : A -> R) (l : list A) :
  zip3 (map a l) (map b l) (map c l) = map (fun r => [a r; b r; c r]) l.
Proof. induction l as [| r l IH]; simpl; [reflexivity | now rewrite IH]. Qed.

(** On a rectangular batch the columns of lines 30-34 with the formulas on
    arrays give what lines 25-29 with the formulas on numbers give for each
    row. *)
Lemma sph2vec_packed_rowwise (rows : list (list R)) :
  Forall (fun row => length row = shape1 rows) rows ->
  sph2vec_packed (Rows rows)
  = (vs <- map_result (fun c => '(theta, phi, rho) <- unpack c ;;
                                Ok (sph2vec theta phi rho)) rows ;;
     Ok (Rows vs)).
Proof.
  intros Hrect. destruct rows as [| row0 rest]; [reflexivity |].
  set (rows := row0 :: rest) in *.
  assert (Hd : shape1 rows = length row0) by reflexivity.
  set (d := shape1 rows) in *.
  destruct (Nat.le_gt_cases d 1) as [Hshort | Hlong].
  - (* fewer than two components: theta[..., 1] fails, as theta[1] does *)
    unfold sph2vec_packed. unfold rows at 1. rewrite component_fail by lia.
    unfold rows. cbn [map_result]. unfold unpack. rewrite item_fail by lia.
    reflexivity.
  - assert (H0 : Forall (fun row => (0 < length row)%nat) rows).
    { eapply Forall_impl; [| exact Hrect]. simpl. intros row ->. lia. }
    assert (H1 : Forall (fun row => (1 < length row)%nat) rows).
    { eapply Forall_impl; [| exact Hrect]. simpl. intros row ->. lia. }
    unfold sph2vec_packed. fold d.
    rewrite (component_ok 1 rows H1), (component_ok 0 rows H0). cbn [rbind].
    destruct (Nat.ltb_spec 2 d) as [H3 | H2].
    + (* a column of radii *)
      assert (H2 : Forall (fun row => (2 < length row)%nat) rows).
      { eapply Forall_impl; [| exact Hrect]. simpl. intros row ->. lia. }
      rewrite (component_ok 2 rows H2). cbn [rbind]. unfold times.
      rewrite (map_result_ok _
                 (fun row => sph2vec (nth 0 row 0) (nth 1 row 0) (nth 2 row 0))).
      * cbn [rbind]. rewrite map_map, !zip_with_maps, zip3_maps. reflexivity.
      * rewrite Forall_forall in H2 |- *. intros row Hin. specialize (H2 row Hin).
        unfold unpack. rewrite !item_ok by lia. cbn [rbind].
        rewrite (nth_error_nth' row 0 H2). reflexivity.
    + (* the default radius *)
      cbn [rbind]. unfold times.
      rewrite (map_result_ok _ (fun row => sph2vec (nth 0 row 0) (nth 1 row 0) 1)).
      * cbn [rbind]. rewrite !zip_with_maps, !map_map, zip3_maps. reflexivity.
      * rewrite Forall_forall in Hrect, H1 |- *. intros row Hin.
        specialize (H1 row Hin). specialize (Hrect row Hin). simpl in Hrect.
        unfold unpack. rewrite !item_ok by lia. cbn [rbind].
        assert (Hnone : nth_error row 2 = None) by (apply nth_error_None; lia).
        rewrite Hnone. reflexivity.
Qed.

(** X26: on a batch, a rectangular array, [sph2vec] works row by row: it
    returns a batch exactly when it returns a vector for every row passed
    alone, and the rows of the batch are those vectors. *)
Theorem sph2vec_packed_rows (rows vs : list (list R)) :
  Forall (fun row => length row = shape1 rows) rows ->
  (sph2vec_packed (Rows rows) = Ok (Rows vs)
   <-> Forall2 (fun c v => sph2vec_packed (Flat c) = Ok (Flat v)) rows vs).
Proof.
  intros Hrect. rewrite (sph2vec_packed_rowwise rows Hrect).
  assert (Hrow : forall c v,
            sph2vec_packed (Flat c) = Ok (Flat v) <->
            ('(theta, phi, rho) <- unpack c ;; Ok (sph2vec theta phi rho)) = Ok v).
  { intros c v. unfold sph2vec_packed.
    destruct (unpack c) as [[[theta phi] rho] | | |]; cbn [rbind];
      split; intros H; try discriminate; congruence. }
  split.
  - intros H. apply rbind_ok in H. destruct H as (ws & Hws & H).
    assert (ws = vs) by congruence. subst ws.
    apply map_result_Forall2 in Hws.
    eapply Forall2_impl; [| exact Hws]. intros c v Hcv. now apply Hrow.
  - intros H.
    assert (Hws : map_result
                    (fun c => '(theta, phi, rho) <- unpack c ;;
                              Ok (sph2vec theta phi rho)) rows = Ok vs).
    { apply map_result_Forall2. eapply Forall2_impl; [| exact H].
      intros c v Hcv. now apply Hrow. }
    rewrite Hws. reflexivity.
Qed.

Lemma sph2vec_packed_rows_witness :
  sph2vec_packed (Rows [[0; 0]; [0; 0]]) = Ok (Rows [sph2vec 0 0 1; sph2vec 0 0 1]).
Proof.
  apply (sph2vec_packed_rows [[0; 0]; [0; 0]] [sph2vec 0 0 1; sph2vec 0 0 1]).
  - repeat constructor.
  - repeat constructor.
Defined.

(** ** Compositions *)

(** X27: in the form with two arguments [vec2pol] after [pol2vec] does not
    give the angle back but its complement: for a positive radius and an
    angle of [[-pi/2, 3*pi/2)] it answers [(rho, pi/2 - phi)]. *)
Theorem vec2pol_pol2vec_complement (rho phi : R) :
  0 < rho -> - PI / 2 <= phi < 3 * PI / 2 ->
  vec2pol (fst (pol2vec rho phi)) (snd (pol2vec rho phi)) = (rho, PI / 2 - phi).
Proof.
  intros Hrho Hphi. unfold pol2vec, vec2pol. simpl. f_equal.
  - replace (rho * cos phi * (rho * cos phi) + rho * sin phi * (rho * sin phi))
      with (rho * rho * (sin phi * sin phi + cos phi * cos phi)) by ring.
    rewrite sin_cos_sqr, Rmult_1_r. apply sqrt_square. lra.
  - rewrite <- (sin_shift phi), <- (cos_shift phi).
    apply arctan2_of_polar; lra.
Qed.

Lemma vec2pol_pol2vec_complement_witness :
  vec2pol (fst (pol2vec 1 0)) (snd (pol2vec 1 0)) = (1, PI / 2 - 0).
Proof.
  pose proof PI_bounds as HPI.
  apply (vec2pol_pol2vec_complement 1 0); lra.
Defined.

(** X28: [vec2sph] of a vector turned by [azirot]: the elevation and the
    radius of the vector are found again, and its azimuth lowered by the
    angle of the turn and folded into [[-pi, pi)]. *)
Theorem vec2sph_azirot (fuel : nat) (a : loc) (h : heap)
    (theta phi rho alpha : R) (v : list R) :
  azirot (sph2vec theta phi rho) alpha = Ok v -> read h a = v ->
  0 < rho -> - PI / 2 < theta < PI / 2 ->
  vec2sph (S (S fuel)) (Vec1 a) h
  = Ok (Flat [theta; modulo_fold (- PI) PI (phi - alpha); rho], h).
Proof.
  intros Hrot Hread Hrho Htheta.
  rewrite azirot_sph2vec in Hrot. injection Hrot as <-.
  now apply vec2sph_of_sph2vec.
Qed.

Lemma vec2sph_azirot_witness :
  vec2sph 2 (Vec1 0%nat) [sph2vec 0 (1 - 3) 2]
  = Ok (Flat [0; modulo_fold (- PI) PI (1 - 3); 2], [sph2vec 0 (1 - 3) 2]).
Proof.
  pose proof PI_bounds as HPI.
  apply (vec2sph_azirot 0 0%nat [sph2vec 0 (1 - 3) 2] 0 1 2 3 (sph2vec 0 (1 - 3) 2)).
  - apply azirot_sph2vec.
  - reflexivity.
  - lra.
  - lra.
Defined.
